(** * Streaming TopoART: a shallow embedding of [StreamingTopoART]

    The class of [src/classes/streamingtopoart.py] is an online clustering
    module of the ART family.  It keeps an ordered list of prototypes, a
    cycle counter and an undirected networkx graph whose nodes are the
    prototype tags.  This file embeds the constructor, [__add_prototype],
    [__prune] and [learn] and proves the properties stated for them.

    Modelling conventions.
    - Python floats (scores, learning rates, weight entries) are exact
      rationals [Q]; Python integers are [Z].  The scores of [choice] and
      [match] are real numbers, as their interface says: a NaN, on which
      [max], [index] and the comparisons of the loop guards are not those
      of an order, is not a score of this model, and rounding is left
      out.
    - A numpy array is a one dimensional vector, [list Q]; binary numpy
      operations follow the broadcasting rule for such vectors and raise
      [ValueError] on a shape mismatch.
    - The object [self] is a record threaded through a state and exception
      monad: a raised exception keeps the state reached so far, as the
      mutations done on a Python object before a [raise] stay visible.
    - The two [while] loops of [learn] and the loop of [__prune] carry a
      fuel argument; [OutOfFuel] is a third outcome which is proved never
      to occur for the fuel that [learn] and [__prune] supply. *)

From stdpp Require Import base list sorting strings pretty.
From Stdlib Require Import QArith Qminmax.

#[local] Set Warnings "-clear-no-such-hyp".

Open Scope Z_scope.

(** ** Numbers and Python builtins *)

Abbreviation ndarray := (list Q).

(** [x < y] on floats. *)
Definition Qltb (x y : Q) : bool :=
  match (x ?= y)%Q with Lt => true | _ => false end.

(** Python's [max(l)] keeps the first item and replaces it only by a
    strictly greater one; it raises on an empty list. *)
Fixpoint max_from (m : Q) (l : list Q) : Q :=
  match l with
  | [] => m
  | x :: l => max_from (if Qltb m x then x else m) l
  end.

Definition py_max (l : list Q) : option Q :=
  match l with
  | [] => None
  | x :: l => Some (max_from x l)
  end.

(** Python's [l.index(v)]: the first position holding a value equal to [v]. *)
Fixpoint py_index (v : Q) (l : list Q) : option nat :=
  match l with
  | [] => None
  | x :: l => if Qeq_bool x v then Some 0%nat else S <$> py_index v l
  end.

(** ** numpy on one dimensional arrays *)

Module np.

(** Broadcasting of two vectors: equal lengths combine pointwise, a vector
    of length one is stretched, anything else is a shape error. *)
Definition broadcast (f : Q → Q → Q) (a b : ndarray) : option ndarray :=
  if bool_decide (length a = length b) then Some (zip_with f a b)
  else match a, b with
       | [x], _ => Some (f x <$> b)
       | _, [y] => Some ((λ x, f x y) <$> a)
       | _, _ => None
       end.

Definition minimum : ndarray → ndarray → option ndarray := broadcast Qmin.
Definition add : ndarray → ndarray → option ndarray := broadcast Qplus.

(** A Python scalar times an array. *)
Definition scale (c : Q) (a : ndarray) : ndarray := Qmult c <$> a.

End np.

(** The update that [learn] writes twice:
    [(1 - rate)*w + rate*np.minimum(input, w)]. *)
Definition fuzzy_min_update (rate : Q) (input w : ndarray) : option ndarray :=
  m ← np.minimum input w;
  np.add (np.scale (1 - rate)%Q w) (np.scale rate m).

(** ** networkx's [Graph]

    The adjacency structure of [nx.Graph] is a dictionary of dictionaries in
    insertion order; it is kept here as an association list from a node to
    the list of its neighbours. *)

Module nx.

Record Graph := mkGraph { adj : list (string * list string) }.

Definition empty : Graph := mkGraph [].

Definition nodes (G : Graph) : list string := (adj G).*1.

Definition has_node (G : Graph) (n : string) : bool :=
  bool_decide (n ∈ nodes G).

Fixpoint neighbors (a : list (string * list string)) (n : string)
  : option (list string) :=
  match a with
  | [] => None
  | (m, nbrs) :: a => if decide (m = n) then Some nbrs else neighbors a n
  end.

(** [G.has_edge(u, v)]: [v in G._adj[u]]. *)
Definition has_edge (G : Graph) (u v : string) : bool :=
  match neighbors (adj G) u with
  | Some nbrs => bool_decide (v ∈ nbrs)
  | None => false
  end.

(** [G.add_node(n)] without attributes: nothing happens to a known node. *)
Definition add_node (G : Graph) (n : string) : Graph :=
  if has_node G n then G else mkGraph (adj G ++ [(n, [])]).

(** [_adj[u][v] = {}]: [v] becomes a neighbour of [u] unless it is one. *)
Definition link (u v : string) (a : list (string * list string))
  : list (string * list string) :=
  (λ e, if decide (e.1 = u)
        then (e.1, if bool_decide (v ∈ e.2) then e.2 else e.2 ++ [v])
        else e) <$> a.

(** [G.add_edge(u, v)] without attributes: both nodes are added when they
    are missing, then each becomes a neighbour of the other. *)
Definition add_edge (G : Graph) (u v : string) : Graph :=
  let G := add_node (add_node G u) v in
  mkGraph (link v u (link u v (adj G))).

(** Removal of one node with its incident edges; an unknown node is
    skipped (the [KeyError] is swallowed by [remove_nodes_from]).  The
    adjacency is symmetric in every graph built by these operations, so
    the node is dropped from all neighbour lists. *)
Definition remove_node (G : Graph) (n : string) : Graph :=
  if has_node G n
  then mkGraph ((λ e, (e.1, filter (λ x, x ≠ n) e.2))
                  <$> filter (λ e, e.1 ≠ n) (adj G))
  else G.

Definition remove_nodes_from (G : Graph) (ns : list string) : Graph :=
  foldl remove_node G ns.

(** [G.edges]: every edge is reported once, from the endpoint that comes
    first in node order. *)
Fixpoint edges_from (a : list (string * list string)) (seen : list string)
  : list (string * string) :=
  match a with
  | [] => []
  | (n, nbrs) :: a =>
      ((λ nbr, (n, nbr)) <$> filter (λ nbr, nbr ∉ seen) nbrs)
        ++ edges_from a (n :: seen)
  end.

Definition edges (G : Graph) : list (string * string) :=
  edges_from (adj G) [].

End nx.

(** ** The object *)

(** Modelled from the spec: the class [prototype] of the base module, which
    is not among the sources.  It has the five fields of the data model. *)
Record prototype := Prototype {
  weights : ndarray;
  tag : string;
  birth : Z;
  lastactive : Z;
  counter : Z
}.

Definition set_weights (p : prototype) (w : ndarray) : prototype :=
  Prototype w (tag p) (birth p) (lastactive p) (counter p).

Definition set_counter (p : prototype) (c : Z) : prototype :=
  Prototype (weights p) (tag p) (birth p) (lastactive p) c.

(** The attributes of a [StreamingTopoART] object; [vigilance], [alpha],
    [beta] and [prototypes] are the ones inherited from [BaseART]. *)
Record StreamingTopoART := Self {
  vigilance : Q;
  alpha : Q;
  beta : Q;
  prototypes : list prototype;
  beta2 : Q;
  phi : Z;
  tau : Z;
  cycle : Z;
  clusters : list (list string);
  network : nx.Graph
}.

Definition set_prototypes (self : StreamingTopoART) (ps : list prototype) :=
  Self (vigilance self) (alpha self) (beta self) ps (beta2 self) (phi self)
       (tau self) (cycle self) (clusters self) (network self).

Definition set_cycle (self : StreamingTopoART) (c : Z) :=
  Self (vigilance self) (alpha self) (beta self) (prototypes self)
       (beta2 self) (phi self) (tau self) c (clusters self) (network self).

Definition set_network (self : StreamingTopoART) (G : nx.Graph) :=
  Self (vigilance self) (alpha self) (beta self) (prototypes self)
       (beta2 self) (phi self) (tau self) (cycle self) (clusters self) G.

(** ** The monad of methods *)

Inductive exn := IndexError | ValueError | BaseError.

Inductive result (A : Type) :=
| Ok (a : A)
| Raise (e : exn)
| OutOfFuel.
Arguments Ok {A} a.
Arguments Raise {A} e.
Arguments OutOfFuel {A}.

Definition M (A : Type) : Type :=
  StreamingTopoART → result A * StreamingTopoART.

#[global] Instance M_ret : MRet M := λ A a self, (Ok a, self).

#[global] Instance M_bind : MBind M := λ A B f m self,
  match m self with
  | (Ok a, self') => f a self'
  | (Raise e, self') => (Raise e, self')
  | (OutOfFuel, self') => (OutOfFuel, self')
  end.

Definition get : M StreamingTopoART := λ self, (Ok self, self).
Definition put (self' : StreamingTopoART) : M unit := λ _, (Ok (), self').
Definition raise {A} (e : exn) : M A := λ self, (Raise e, self).
Definition out_of_fuel {A} : M A := λ self, (OutOfFuel, self).

(** [l[i]] for a non negative [i]. *)
Definition getitem {A} (l : list A) (i : nat) : M A :=
  match l !! i with
  | Some x => mret x
  | None => raise IndexError
  end.

(** A numpy expression, which may fail on shapes. *)
Definition numpy {A} (o : option A) : M A :=
  match o with
  | Some x => mret x
  | None => raise ValueError
  end.

(** A method of the base class: it reads [self] and returns or raises. *)
Definition call {A} (f : StreamingTopoART → exn + A) : M A := λ self,
  match f self with
  | inl e => (Raise e, self)
  | inr a => (Ok a, self)
  end.

(** [T.index(max(T))]. *)
Definition index_of_max (T : list Q) : M nat :=
  match py_max T with
  | None => raise ValueError
  | Some m =>
      match py_index m T with
      | Some i => mret i
      | None => raise ValueError
      end
  end.

(** ** The base class

    [BaseART] and the class [prototype] live in the base module, which is
    not among the sources.  What [StreamingTopoART] uses of them is a
    parameter of the model:
    - the scoring methods [choice] and [match_], which read the object and
      the input and return one score per prototype, or raise;
    - [lastactive0] and [counter0], the values that the constructor of
      [prototype] gives to the fields [lastactive], from the birth cycle,
      and [counter];
    - [base_accepts], which tells whether [BaseART.__init__] returns rather
      than raises. *)

Class BaseART := {
  choice : StreamingTopoART → ndarray → exn + list Q;
  match_ : StreamingTopoART → ndarray → exn + list Q;
  lastactive0 : Z → Z;
  counter0 : Z;
  base_accepts : Q → Q → Q → bool
}.

(** ** The methods *)

Section Methods.

Context {Base : BaseART}.

(** Modelled from the spec: the constructor [prototype(weights, tag,
    birth)] of the base module, which is not among the sources.  It stores
    its three arguments. *)
Definition new_prototype (w : ndarray) (tg : string) (b : Z) : prototype :=
  Prototype w tg b (lastactive0 b) counter0.

(** Modelled from the spec: [BaseART.__init__], which is not among the
    sources, stores [vigilance], [alpha] and [beta] and leaves an empty list
    of prototypes.  [blank] is the object at the end of [__init__] when the
    base constructor returns. *)
Definition blank (vigilance alpha beta beta2 : Q) (phi tau : Z)
  : StreamingTopoART :=
  Self vigilance alpha beta [] beta2 phi tau 0 [] nx.empty.

Definition __init__ (vigilance alpha beta beta2 : Q) (phi tau : Z)
  : option StreamingTopoART :=
  if base_accepts vigilance alpha beta
  then Some (blank vigilance alpha beta beta2 phi tau)
  else None.

Definition __add_prototype (w : ndarray) (tg : string) (b : Z) : M unit :=
  self ← get;
  put (set_prototypes self (prototypes self ++ [new_prototype w tg b]));;
  self ← get;
  put (set_network self (nx.add_node (network self) tg)).

(** The loop of [__prune]; [i] is the loop index and [deletedtags] the
    list built so far.  A deletion does [i -= 1] before the common
    [i += 1]. *)
Fixpoint prune_loop (fuel : nat) (i : Z) (deletedtags : list string)
  : M (list string) :=
  self ← get;
  if bool_decide (i < Z.of_nat (length (prototypes self))) then
    match fuel with
    | O => out_of_fuel
    | S fuel =>
        p ← getitem (prototypes self) (Z.to_nat i);
        if bool_decide (cycle self - lastactive p > phi self) then
          put (set_prototypes self
                 (delete (Z.to_nat i) (prototypes self)));;
          prune_loop fuel (i - 1 + 1) (deletedtags ++ [tag p])
        else
          prune_loop fuel (i + 1) deletedtags
    end
  else mret deletedtags.

Definition __prune : M unit :=
  self ← get;
  deletedtags ← prune_loop (length (prototypes self)) 0 [];
  self ← get;
  put (set_network self
         (nx.remove_nodes_from (network self) deletedtags)).

(** [all(val < 0 for val in T)] and [any(val > 0 for val in T)]. *)
Definition all_negative (T : list Q) : bool :=
  forallb (λ val, Qltb val 0) T.
Definition any_positive (T : list Q) : bool :=
  existsb (λ val, Qltb 0 val) T.

(** The local variables that the search loops of [learn] leave behind:
    the list [T] and the indices [IFW] and [ISW] when they were bound to
    a resonating prototype. *)
Record locals := Locals {
  T_of : list Q;
  IFW_of : option nat;
  ISW_of : option nat
}.

(** The inner [while] of [learn]: the search for a second winner. *)
Fixpoint second_winner_loop (fuel : nat) (input : ndarray) (Mv : list Q)
    (IFW : nat) (tagFW : string) (T : list Q) : M locals :=
  if all_negative T then mret (Locals T (Some IFW) None)
  else
    match fuel with
    | O => out_of_fuel
    | S fuel =>
        ISW ← index_of_max T;
        m ← getitem Mv ISW;
        self ← get;
        if Qle_bool (vigilance self) m then
          pFW ← getitem (prototypes self) IFW;
          w ← numpy (fuzzy_min_update (beta self) input (weights pFW));
          pSW ← getitem (prototypes self) ISW;
          put (set_prototypes self
                 (<[ISW := set_weights pSW w]> (prototypes self)));;
          self ← get;
          pSW ← getitem (prototypes self) ISW;
          let tagSW := tag pSW in
          (if negb (bool_decide
                      ((tagFW, tagSW) ∈ nx.edges (network self)))
              || negb (bool_decide
                         ((tagSW, tagFW) ∈ nx.edges (network self)))
           then put (set_network self
                       (nx.add_edge (network self) tagFW tagSW))
           else mret ());;
          mret (Locals T (Some IFW) (Some ISW))
        else
          second_winner_loop fuel input Mv IFW tagFW (<[ISW := (-1)%Q]> T)
    end.

(** The outer [while] of [learn]: the search for a first winner. *)
Fixpoint first_winner_loop (fuel : nat) (input : ndarray) (Mv : list Q)
    (T : list Q) : M locals :=
  if all_negative T then mret (Locals T None None)
  else
    match fuel with
    | O => out_of_fuel
    | S fuel =>
        IFW ← index_of_max T;
        m ← getitem Mv IFW;
        self ← get;
        if Qle_bool (vigilance self) m then
          pFW ← getitem (prototypes self) IFW;
          w ← numpy (fuzzy_min_update (beta self) input (weights pFW));
          put (set_prototypes self
                 (<[IFW := set_weights pFW w]> (prototypes self)));;
          self ← get;
          pFW ← getitem (prototypes self) IFW;
          put (set_prototypes self
                 (<[IFW := set_counter pFW (counter pFW + 1)]>
                    (prototypes self)));;
          let T := <[IFW := (-1)%Q]> T in
          self ← get;
          pFW ← getitem (prototypes self) IFW;
          second_winner_loop (length T) input Mv IFW (tag pFW) T
        else
          first_winner_loop fuel input Mv (<[IFW := (-1)%Q]> T)
    end.

(** [f"p{self.cycle}"]. *)
Definition fresh_tag (c : Z) : string := "p" +:+ pretty c.

(** Lines 119 to 154 of [learn]: the empty store, or the search followed
    by the creation of a prototype when no score of [T] is positive. *)
Definition resonate (input : ndarray) : M unit :=
  self ← get;
  if bool_decide (length (prototypes self) = 0%nat) then
    __add_prototype input (fresh_tag (cycle self)) (cycle self)
  else
    T ← call (λ self, choice self input);
    Mv ← call (λ self, match_ self input);
    l ← first_winner_loop (length T) input Mv T;
    if negb (any_positive (T_of l)) then
      self ← get;
      __add_prototype input (fresh_tag (cycle self)) (cycle self)
    else mret ().

Definition learn (input : ndarray) : M unit :=
  self ← get;
  put (set_cycle self (cycle self + 1));;
  resonate input;;
  self ← get;
  if bool_decide (cycle self > tau self) then __prune else mret ().

(** A caller that presents the inputs one after the other and goes on
    after an exception. *)
Definition learn_all (self : StreamingTopoART) (inputs : list ndarray)
  : StreamingTopoART :=
  foldl (λ self input, (learn input self).2) self inputs.

End Methods.

(** ** An instance of the base class

    The Fuzzy ART activation and match functions, with the simplest
    constructors: an instance of the parameters above on which the model
    runs.  The general theorems below do not depend on it. *)

Module FuzzyART.

Definition norm1 (a : ndarray) : Q := foldr Qplus 0%Q a.

(** [|input ∧ w| / den], or a shape error. *)
Definition score (input : ndarray) (den : ndarray → Q) (p : prototype)
  : option Q :=
  m ← np.minimum input (weights p);
  Some (norm1 m / den (weights p))%Q.

Definition scores (input : ndarray) (den : ndarray → Q)
    (ps : list prototype) : exn + list Q :=
  match mapM (score input den) ps with
  | Some T => inr T
  | None => inl ValueError
  end.

Definition fuzzy_choice (self : StreamingTopoART) (input : ndarray)
  : exn + list Q :=
  scores input (λ w, alpha self + norm1 w)%Q (prototypes self).

Definition fuzzy_match (self : StreamingTopoART) (input : ndarray)
  : exn + list Q :=
  scores input (λ _, norm1 input) (prototypes self).

(** A base constructor that checks the ranges of its arguments. *)
Definition accepts (vigilance alpha beta : Q) : bool :=
  Qle_bool 0 vigilance && Qle_bool vigilance 1
  && Qltb 0 alpha && Qle_bool 0 beta && Qle_bool beta 1.

(** A new prototype is active at its birth and has not won yet. *)
Definition base : BaseART :=
  Build_BaseART fuzzy_choice fuzzy_match (λ b, b) 0 accepts.

End FuzzyART.

(** ** Concrete objects and inputs *)

Module Scenario.

(** Vigilance 0.5, alpha 0.01, beta 0.5, beta2 0.25 and phi 0, with a long
    warm-up ([tau] = 100) or none ([tau] = 0). *)
Definition patient : StreamingTopoART :=
  blank (1#2) (1#100) (1#2) (1#4) 0 100.
Definition eager : StreamingTopoART :=
  blank (1#2) (1#100) (1#2) (1#4) 0 0.

Definition east : ndarray := [1; 0]%Q.
Definition north : ndarray := [0; 1]%Q.
Definition half_east : ndarray := [1#2; 0]%Q.
Definition corner : ndarray := [1; 1]%Q.
Definition long : ndarray := [1; 0; 0]%Q.

(** The prototype that [east] creates at the first cycle. *)
Definition p1 : prototype := Prototype east "p1" 1 1 0.
(** The prototype that [half_east] creates at the second cycle. *)
Definition p2 : prototype := Prototype half_east "p2" 2 2 0.
(** [p1] after it has won on [half_east] at the second cycle: the weights
    [0.5*east + 0.5*min(half_east, east)], one win, and the [lastactive]
    of the first cycle. *)
Definition p1_won : prototype := Prototype [6 # 8; 0 # 4]%Q "p1" 1 1 1.

End Scenario.

(** * Vocabulary of the properties *)

(** The number of scores that are not exhausted. *)
Definition live (T : list Q) : nat :=
  length (filter (λ val, Qltb val 0 = false) T).

(** Two prototypes with the same identity: the fields that no search
    writes. *)
Definition same_meta (p q : prototype) : Prop :=
  tag q = tag p ∧ birth q = birth p ∧ lastactive q = lastactive p.

(** The attributes other than the store and the graph. *)
Definition same_config (s s' : StreamingTopoART) : Prop :=
  vigilance s' = vigilance s ∧ alpha s' = alpha s ∧ beta s' = beta s
  ∧ beta2 s' = beta2 s ∧ phi s' = phi s ∧ tau s' = tau s
  ∧ cycle s' = cycle s ∧ clusters s' = clusters s.

(** The store after a search: the same prototypes at the same places, with
    new weights or counters at most. *)
Definition retouched (s s' : StreamingTopoART) : Prop :=
  same_config s s' ∧ Forall2 same_meta (prototypes s) (prototypes s').

(** The staleness test of [__prune]. *)
Definition stale (s : StreamingTopoART) (p : prototype) : Prop :=
  cycle s - lastactive p > phi s.

#[global] Instance stale_dec s p : Decision (stale s p).
Proof. unfold stale. apply _. Defined.

(** The object after [__prune]: the prototypes that are not stale, in
    order, and the graph without the nodes of the stale ones. *)
Definition pruned (s : StreamingTopoART) : StreamingTopoART :=
  set_network
    (set_prototypes s (filter (λ p, ¬ stale s p) (prototypes s)))
    (nx.remove_nodes_from (network s)
       (tag <$> filter (stale s) (prototypes s))).

(** The tags in the store, in order. *)
Definition tags (s : StreamingTopoART) : list string :=
  tag <$> prototypes s.

(** The fuzzy-min rule of the design: [(1 - rate)·w + rate·min(input, w)]
    entry by entry, for two vectors of one dimension. *)
Definition fuzzy_min (rate : Q) (input w : ndarray) : ndarray :=
  zip_with (λ x a, (1 - rate) * a + rate * Qmin x a)%Q input w.

Section Vocabulary.

Context {Base : BaseART}.

(** The result of the search for the winners [i] and [j]: both pass the
    vigilance test and the graph gets the edge between their tags, if it
    changes. *)
Definition joined (s s' : StreamingTopoART) (Mv : list Q) (i j : nat)
  : Prop :=
  ∃ pi pj mi mj,
    prototypes s !! i = Some pi ∧ prototypes s !! j = Some pj
    ∧ Mv !! i = Some mi ∧ Mv !! j = Some mj
    ∧ Qle_bool (vigilance s) mi = true ∧ Qle_bool (vigilance s) mj = true
    ∧ (network s' = nx.add_edge (network s) (tag pi) (tag pj)
       ∨ network s' = network s).

(** The search of [learn] in the object [s] on [input] ends with the
    first winner at index [i] and the second winner at index [j]. *)
Definition winners (s : StreamingTopoART) (input : ndarray) (i j : nat)
  : Prop :=
  ∃ T Mv l s1,
    choice s input = inr T ∧ match_ s input = inr Mv
    ∧ first_winner_loop (length T) input Mv T s = (Ok l, s1)
    ∧ IFW_of l = Some i ∧ ISW_of l = Some j.

(** The prototype at index [i] passes the vigilance test for [input]. *)
Definition resonates (s : StreamingTopoART) (input : ndarray) (i : nat)
  : Prop :=
  ∃ Mv m, match_ s input = inr Mv ∧ Mv !! i = Some m
          ∧ Qle_bool (vigilance s) m = true.

(** What [resonate] does to the object: the prototypes stay in place with
    their identity, one prototype at most is appended, with the tag of the
    current cycle, and its node is added; the graph gets the edge between
    the two winners at most. *)
Definition resonated (input : ndarray) (s s' : StreamingTopoART) : Prop :=
  same_config s s' ∧
  ∃ ps new G,
    prototypes s' = ps ++ new
    ∧ Forall2 same_meta (prototypes s) ps
    ∧ (new = []
       ∨ new = [new_prototype input (fresh_tag (cycle s)) (cycle s)])
    ∧ network s' = foldl nx.add_node G (tag <$> new)
    ∧ (G = network s
       ∨ ∃ i j pi pj,
           winners s input i j
           ∧ prototypes s !! i = Some pi ∧ prototypes s !! j = Some pj
           ∧ G = nx.add_edge (network s) (tag pi) (tag pj)).

(** The invariant of the objects that [learn] produces: the tags are
    pairwise distinct, every prototype carries the tag of its birth cycle
    and the value of [lastactive] it was created with, no birth lies
    ahead of the cycle counter, and the graph has the tags as nodes. *)
Definition well_formed (s : StreamingTopoART) : Prop :=
  NoDup (tags s)
  ∧ (∀ p, p ∈ prototypes s →
          tag p = fresh_tag (birth p) ∧ birth p <= cycle s
          ∧ lastactive p = lastactive0 (birth p))
  ∧ (∀ t, t ∈ nx.nodes (network s) ↔ t ∈ tags s).

End Vocabulary.

(** ** Vocabulary of the further properties *)

(** Same store, same graph, same configuration. *)
Definition untouched (s s' : StreamingTopoART) : Prop :=
  prototypes s' = prototypes s ∧ network s' = network s ∧ same_config s s'.

(** The first winner after its update: the fuzzy-min weights [w] and one
    more win. *)
Definition won (p : prototype) (w : ndarray) : prototype :=
  set_counter (set_weights p w) (counter p + 1).

(** What a search does, by its outcome.
    - [search_none]: no prototype resonated, or an exception came before
      any write; nothing changed.
    - [search_one]: the prototype at [i] is the first winner and no second
      one was found, or an exception came during the second search; only
      the first winner changed.
    - [search_two]: the prototypes at [i] and [j] are the first and the
      second winner; the second one gets the rule applied to the new
      weights of the first, and the graph gets their edge. *)
Inductive search_effect (input : ndarray) (Mv : list Q)
    (s : StreamingTopoART) : result locals → StreamingTopoART → Prop :=
| search_none r s' :
    untouched s s' →
    (∀ l, r = Ok l →
          IFW_of l = None ∧ ISW_of l = None
          ∧ all_negative (T_of l) = true) →
    search_effect input Mv s r s'
| search_one i pi mi w r s' :
    prototypes s !! i = Some pi →
    Mv !! i = Some mi → Qle_bool (vigilance s) mi = true →
    fuzzy_min_update (beta s) input (weights pi) = Some w →
    prototypes s' = <[i := won pi w]> (prototypes s) →
    network s' = network s → same_config s s' →
    (∀ l, r = Ok l →
          IFW_of l = Some i ∧ ISW_of l = None
          ∧ all_negative (T_of l) = true) →
    search_effect input Mv s r s'
| search_two i j pi pj mi mj w w2 l t s' :
    i ≠ j →
    prototypes s !! i = Some pi → prototypes s !! j = Some pj →
    Mv !! i = Some mi → Qle_bool (vigilance s) mi = true →
    Mv !! j = Some mj → Qle_bool (vigilance s) mj = true →
    fuzzy_min_update (beta s) input (weights pi) = Some w →
    fuzzy_min_update (beta s) input w = Some w2 →
    prototypes s'
    = <[j := set_weights pj w2]> (<[i := won pi w]> (prototypes s)) →
    (network s' = nx.add_edge (network s) (tag pi) (tag pj)
     ∨ (network s' = network s ∧ tag pi = tag pj)) →
    same_config s s' →
    IFW_of l = Some i → ISW_of l = Some j →
    T_of l !! j = Some t → Qltb t 0 = false →
    search_effect input Mv s (Ok l) s'.

(** What the search for a second winner does, the first winner being at
    [i] with tag [tg]: nothing, or the update of the second winner at [j]
    from the weights of the first and the edge between the two. *)
Definition second_search_effect (input : ndarray) (Mv : list Q) (i : nat)
    (tg : string) (s : StreamingTopoART) (r : result locals)
    (s' : StreamingTopoART) : Prop :=
  (untouched s s'
   ∧ ∀ l, r = Ok l →
          IFW_of l = Some i ∧ ISW_of l = None
          ∧ all_negative (T_of l) = true)
  ∨ ∃ j pi pj mj w2 l t,
      r = Ok l ∧ j ≠ i
      ∧ prototypes s !! i = Some pi ∧ prototypes s !! j = Some pj
      ∧ Mv !! j = Some mj ∧ Qle_bool (vigilance s) mj = true
      ∧ fuzzy_min_update (beta s) input (weights pi) = Some w2
      ∧ prototypes s' = <[j := set_weights pj w2]> (prototypes s)
      ∧ (network s' = nx.add_edge (network s) tg (tag pj)
         ∨ (network s' = network s ∧ tg = tag pj))
      ∧ same_config s s'
      ∧ IFW_of l = Some i ∧ ISW_of l = Some j
      ∧ T_of l !! j = Some t ∧ Qltb t 0 = false.

(** A graph as the module keeps it: no node twice, every edge in both
    directions, no loop on a node, and both ends of an edge are nodes. *)
Definition simple_graph (G : nx.Graph) : Prop :=
  NoDup (nx.nodes G)
  ∧ (∀ u v, nx.has_edge G u v = true → nx.has_edge G v u = true)
  ∧ (∀ u, nx.has_edge G u u = false)
  ∧ (∀ u v, nx.has_edge G u v = true → v ∈ nx.nodes G).

(** The object after pruning, if the warm-up is over. *)
Definition after_pruning (s : StreamingTopoART) : StreamingTopoART :=
  if bool_decide (cycle s > tau s) then pruned s else s.

Section MoreVocabulary.

Context {Base : BaseART}.

(** The object after [__add_prototype] for [input] at the current cycle. *)
Definition created (input : ndarray) (s : StreamingTopoART)
  : StreamingTopoART :=
  set_network
    (set_prototypes s
       (prototypes s
          ++ [new_prototype input (fresh_tag (cycle s)) (cycle s)]))
    (nx.add_node (network s) (fresh_tag (cycle s))).

(** The prototype at [i] is the best of the resonating prototypes other
    than those in [out]: it resonates, and every other resonating one has a
    choice score that is not greater, and smaller if it comes earlier in
    the store. *)
Definition best_resonating (s : StreamingTopoART) (T Mv : list Q)
    (out : list nat) (i : nat) : Prop :=
  ∃ ti mi,
    T !! i = Some ti ∧ Mv !! i = Some mi
    ∧ Qle_bool (vigilance s) mi = true ∧ (i ∉ out)
    ∧ ∀ k tk mk,
        T !! k = Some tk → Mv !! k = Some mk →
        Qle_bool (vigilance s) mk = true → (k ∉ out) →
        (tk <= ti)%Q ∧ ((k < i)%nat → (tk < ti)%Q).

End MoreVocabulary.

(** The list [T] of a search in progress, against the scores [T0] that
    [choice] returned: a score is as returned, or it is the mark [-1.0] of
    a prototype that failed the vigilance test or is in [out]. *)
Definition exhausts (vig : Q) (T0 Mv : list Q) (out : list nat)
    (T : list Q) : Prop :=
  ∀ k, T !! k = T0 !! k
       ∨ (T !! k = Some (-1)%Q
          ∧ (k ∈ out ∨ ∃ m, Mv !! k = Some m ∧ Qle_bool vig m = false)).

(** The birth cycles in the store, in order. *)
Definition births (s : StreamingTopoART) : list Z :=
  birth <$> prototypes s.

(** The store in the order of creation: the cycle counter is not negative,
    the births increase along the store and lie between 1 and the cycle
    counter. *)
Definition in_creation_order (s : StreamingTopoART) : Prop :=
  0 <= cycle s
  ∧ StronglySorted Z.lt (births s)
  ∧ Forall (λ b, 1 <= b <= cycle s) (births s).

(** The graph is simple and lists the tags of the store as its nodes, in
    the order of the store. *)
Definition graph_mirrors_store (s : StreamingTopoART) : Prop :=
  simple_graph (network s) ∧ nx.nodes (network s) = tags s.

(** * Properties *)

(** ** Facts on the graph operations *)

Module nx_facts.
Import nx.

Lemma elem_of_nodes_add_node G n t :
  t ∈ nodes (add_node G n) ↔ t ∈ nodes G ∨ t = n.
Proof.
  unfold add_node, has_node. case_bool_decide as Hn; [naive_solver|].
  unfold nodes; simpl. rewrite fmap_app, elem_of_app. simpl.
  rewrite list_elem_of_singleton. done.
Qed.

Lemma nodes_link u v a : (link u v a).*1 = a.*1.
Proof.
  unfold link. rewrite <- list_fmap_compose. apply list_fmap_ext.
  intros i [m nbrs] _. simpl. by case_decide.
Qed.

Lemma elem_of_nodes_add_edge G u v t :
  t ∈ nodes (add_edge G u v) ↔ t ∈ nodes G ∨ t = u ∨ t = v.
Proof.
  unfold add_edge. unfold nodes at 1. simpl. rewrite !nodes_link.
  fold (nodes (add_node (add_node G u) v)).
  rewrite !elem_of_nodes_add_node. naive_solver.
Qed.

Lemma elem_of_nodes_remove_node G n t :
  t ∈ nodes (remove_node G n) ↔ t ∈ nodes G ∧ t ≠ n.
Proof.
  unfold remove_node, has_node. case_bool_decide as Hn.
  - unfold nodes; simpl. rewrite <- list_fmap_compose.
    rewrite !list_elem_of_fmap. split.
    + intros [e [-> He]]. apply list_elem_of_filter in He as [Hne He].
      simpl. split; [|done]. eauto.
    + intros [[e [-> He]] Hne]. exists e. split; [done|].
      by apply list_elem_of_filter.
  - split; [|naive_solver]. intros Ht. split; [done|]. by intros ->.
Qed.

Lemma elem_of_nodes_remove_nodes_from ns G t :
  t ∈ nodes (remove_nodes_from G ns) ↔ t ∈ nodes G ∧ t ∉ ns.
Proof.
  unfold remove_nodes_from. revert G.
  induction ns as [|n ns IH]; intros G; simpl.
  - rewrite elem_of_nil. naive_solver.
  - rewrite IH, elem_of_nodes_remove_node, not_elem_of_cons. naive_solver.
Qed.

(** The neighbours after each operation. *)

Lemma neighbors_app a b u :
  neighbors (a ++ b) u =
    match neighbors a u with Some x => Some x | None => neighbors b u end.
Proof.
  induction a as [|[m nbrs] a IH]; simpl; [done|]. by case_decide.
Qed.

Lemma neighbors_link a b l u :
  neighbors (link a b l) u =
    (λ nbrs, if decide (u = a)
             then (if bool_decide (b ∈ nbrs) then nbrs else nbrs ++ [b])
             else nbrs) <$> neighbors l u.
Proof.
  induction l as [|[m nbrs] l IH]; simpl; [done|].
  destruct (decide (m = a)) as [->|Hma]; simpl.
  - destruct (decide (a = u)) as [<-|Hau]; simpl; [|done].
    by rewrite decide_True.
  - destruct (decide (m = u)) as [<-|Hmu]; simpl; [|done].
    by rewrite decide_False.
Qed.

Lemma neighbors_remove l n u :
  neighbors ((λ e, (e.1, filter (λ x, x ≠ n) e.2))
               <$> filter (λ e, e.1 ≠ n) l) u =
    if decide (u = n) then None
    else filter (λ x, x ≠ n) <$> neighbors l u.
Proof.
  induction l as [|[m nbrs] l IH]; simpl.
  - by case_decide.
  - rewrite filter_cons. simpl. destruct (decide (m ≠ n)) as [Hmn|Hmn].
    + simpl. destruct (decide (m = u)) as [<-|Hmu].
      * by rewrite decide_False.
      * done.
    + apply dec_stable in Hmn as ->.
      rewrite IH. destruct (decide (n = u)) as [<-|Hnu]; [|done].
      by repeat case_decide.
Qed.

(** No operation but [add_edge] creates an edge, and [add_edge] creates
    only the one it is given. *)

Lemma has_edge_add_node G n u v :
  has_edge (add_node G n) u v = true → has_edge G u v = true.
Proof.
  unfold add_node, has_node. case_bool_decide; [done|].
  unfold has_edge; simpl. rewrite neighbors_app.
  destruct (neighbors (adj G) u); [done|]. simpl.
  case_decide; [|done]. rewrite bool_decide_eq_true, elem_of_nil. done.
Qed.

Lemma has_edge_add_edge G a b u v :
  has_edge (add_edge G a b) u v = true →
  has_edge G u v = true ∨ (u = a ∧ v = b) ∨ (u = b ∧ v = a).
Proof.
  intros H.
  assert (has_edge (add_node (add_node G a) b) u v = true
          ∨ (u = a ∧ v = b) ∨ (u = b ∧ v = a)) as [H'|H'].
  { revert H. unfold add_edge, has_edge. simpl.
    rewrite !neighbors_link.
    destruct (neighbors (adj (add_node (add_node G a) b)) u)
      as [nbrs|]; simpl; [|done].
    rewrite !bool_decide_eq_true.
    repeat (case_decide || case_bool_decide); subst;
      rewrite ?elem_of_app, ?list_elem_of_singleton; naive_solver. }
  - left. eauto using has_edge_add_node.
  - by right.
Qed.

Lemma has_edge_remove_node G n u v :
  has_edge (remove_node G n) u v = true → has_edge G u v = true.
Proof.
  unfold remove_node. destruct (has_node G n); [|done].
  unfold has_edge; simpl. rewrite neighbors_remove.
  case_decide; [done|]. destruct (neighbors (adj G) u); simpl; [|done].
  rewrite !bool_decide_eq_true, list_elem_of_filter. naive_solver.
Qed.

Lemma has_edge_remove_nodes_from ns G u v :
  has_edge (remove_nodes_from G ns) u v = true → has_edge G u v = true.
Proof.
  unfold remove_nodes_from. revert G.
  induction ns as [|n ns IH]; intros G; simpl; [done|].
  intros H. eauto using has_edge_remove_node.
Qed.

End nx_facts.

(** ** Facts on [max] and [index] *)

Lemma Qltb_lt x y : Qltb x y = true ↔ (x < y)%Q.
Proof.
  unfold Qltb. rewrite Qlt_alt. destruct (x ?= y)%Q; naive_solver.
Qed.

Lemma Qltb_ge x y : Qltb x y = false ↔ (y <= x)%Q.
Proof.
  rewrite <- not_true_iff_false, Qltb_lt. split.
  - apply Qnot_lt_le.
  - intros H1 H2. by apply (Qle_not_lt _ _ H1).
Qed.

Lemma max_from_ge_init l m : (m <= max_from m l)%Q.
Proof.
  revert m. induction l as [|x l IH]; intros m; simpl; [apply Qle_refl|].
  destruct (Qltb m x) eqn:E; [|done].
  apply Qltb_lt in E. eapply Qle_trans; [|apply IH]. by apply Qlt_le_weak.
Qed.

Lemma max_from_ge l m x : x ∈ l → (x <= max_from m l)%Q.
Proof.
  revert m. induction l as [|y l IH]; intros m Hx; [by inversion Hx|].
  simpl. apply elem_of_cons in Hx as [->|Hx]; [|by apply IH].
  eapply Qle_trans; [|apply max_from_ge_init].
  destruct (Qltb m y) eqn:E; [apply Qle_refl|]. by apply Qltb_ge.
Qed.

Lemma max_from_elem l m : max_from m l = m ∨ max_from m l ∈ l.
Proof.
  revert m. induction l as [|y l IH]; intros m; simpl; [by left|].
  destruct (IH (if Qltb m y then y else m)) as [H|H].
  - rewrite H. destruct (Qltb m y); [right; left|by left].
  - right. by right.
Qed.

Lemma py_max_elem l m : py_max l = Some m → m ∈ l.
Proof.
  destruct l as [|x l]; simpl; [done|]. intros [= <-].
  destruct (max_from_elem l x) as [->|H]; [left|by right].
Qed.

Lemma py_max_ge l m x : py_max l = Some m → x ∈ l → (x <= m)%Q.
Proof.
  destruct l as [|y l]; simpl; [done|]. intros [= <-] Hx.
  apply elem_of_cons in Hx as [->|Hx].
  - apply max_from_ge_init.
  - by apply max_from_ge.
Qed.

Lemma py_index_elem l v : v ∈ l → is_Some (py_index v l).
Proof.
  induction l as [|x l IH]; intros Hv; [by inversion Hv|]. simpl.
  destruct (Qeq_bool x v) eqn:E; [by eexists|].
  apply elem_of_cons in Hv as [->|Hv].
  - rewrite (proj2 (Qeq_bool_iff _ _)) in E; [done|apply Qeq_refl].
  - destruct (IH Hv) as [i ->]. by eexists.
Qed.

Lemma py_index_lookup l v i :
  py_index v l = Some i → ∃ x, l !! i = Some x ∧ (x == v)%Q.
Proof.
  revert i. induction l as [|y l IH]; intros i; simpl; [done|].
  destruct (Qeq_bool y v) eqn:E.
  - intros [= <-]. exists y. split; [done|]. by apply Qeq_bool_iff.
  - destruct (py_index v l) as [j|]; simpl; [|done].
    intros [= <-]. by apply IH.
Qed.

Lemma live_le_length T : (live T <= length T)%nat.
Proof. apply length_filter. Qed.

Lemma live_exhaust T i x :
  T !! i = Some x → Qltb x 0 = false →
  (live (<[i := (-1)%Q]> T) < live T)%nat.
Proof.
  unfold live. revert i. induction T as [|y T IH]; intros i; [done|].
  destruct i as [|i]; simpl.
  - intros [= ->] Hx. rewrite !filter_cons.
    rewrite (decide_True _ _ Hx). rewrite decide_False by done. simpl. lia.
  - intros Hi Hx. specialize (IH i Hi Hx). rewrite !filter_cons.
    case_decide; simpl; lia.
Qed.

Lemma all_negative_live T : all_negative T = false → (0 < live T)%nat.
Proof.
  unfold all_negative, live. induction T as [|y T IH]; simpl; [done|].
  rewrite filter_cons. destruct (Qltb y 0) eqn:E; simpl.
  - done.
  - lia.
Qed.

(** While some score is not negative, [T.index(max(T))] returns, and the
    score it points to is not negative. *)
Lemma index_of_max_live T s :
  all_negative T = false →
  ∃ i x, index_of_max T s = (Ok i, s) ∧ T !! i = Some x
         ∧ Qltb x 0 = false.
Proof.
  intros Hall. unfold index_of_max.
  assert (∃ y, y ∈ T ∧ Qltb y 0 = false) as (y & Hy & Hy0).
  { unfold all_negative in Hall. clear s.
    induction T as [|z T IH]; simpl in *; [done|].
    destruct (Qltb z 0) eqn:E; simpl in *.
    - destruct (IH Hall) as (y & ? & ?). exists y. split; [by right|done].
    - exists z. split; [by left|done]. }
  destruct (py_max T) as [m|] eqn:Hm.
  2:{ destruct T; [by inversion Hy|done]. }
  destruct (py_index_elem T m (py_max_elem _ _ Hm)) as [i Hi].
  rewrite Hi. destruct (py_index_lookup _ _ _ Hi) as (x & Hx & Hxm).
  exists i, x. split; [done|]. split; [done|].
  apply Qltb_ge. apply Qltb_ge in Hy0. rewrite Hxm.
  eapply Qle_trans; [exact Hy0|]. by eapply py_max_ge.
Qed.

(** ** What a call keeps *)

#[local] Instance same_meta_refl : Reflexive same_meta.
Proof. by intros p. Qed.

#[local] Instance same_meta_trans : Transitive same_meta.
Proof.
  intros p q r (?&?&?) (?&?&?). unfold same_meta. split_and!; congruence.
Qed.

#[local] Instance retouched_refl : Reflexive retouched.
Proof. intros s. split; [done|reflexivity]. Qed.

#[local] Instance retouched_trans : Transitive retouched.
Proof.
  intros s1 s2 s3 [C1 F1] [C2 F2]. split.
  - unfold same_config in *. split_and!; naive_solver congruence.
  - by etrans.
Qed.

Lemma retouched_insert s i p q :
  prototypes s !! i = Some p → same_meta p q →
  retouched s (set_prototypes s (<[i := q]> (prototypes s))).
Proof.
  intros Hi Hpq. split; [done|]. simpl.
  apply Forall2_same_length_lookup_2; [by rewrite length_insert|].
  intros j x y Hx Hy. destruct (decide (i = j)) as [->|Hij].
  - rewrite list_lookup_insert_eq in Hy by by eapply lookup_lt_Some.
    by simplify_eq.
  - rewrite list_lookup_insert_ne in Hy by done. by simplify_eq.
Qed.

Section Properties.

Context {Base : BaseART}.

(** Unfolding of the monad on a given state, and a case split on the
    next test of the method being run. *)
Ltac mrun :=
  repeat (progress (unfold mbind, M_bind, mret, M_ret, get, put, raise,
                      out_of_fuel, getitem, numpy, call, index_of_max
                    in *; simpl in * )).

Ltac mcase :=
  match goal with
  | |- context [match ?o with Some _ => _ | None => _ end] =>
      destruct o eqn:?
  | |- context [if ?b then _ else _] => destruct b eqn:?
  end.

Ltac inserted :=
  repeat match goal with
  | H : <[?n := _]> ?l !! ?n = Some _, H' : ?l !! ?n = Some _ |- _ =>
      rewrite list_lookup_insert_eq in H by (by eapply lookup_lt_Some);
      simplify_eq
  | H : <[?n := _]> ?l !! ?n = None, H' : ?l !! ?n = Some _ |- _ =>
      rewrite list_lookup_insert_eq in H by (by eapply lookup_lt_Some);
      simplify_eq
  end.

Lemma retouched_set_network s s1 G :
  retouched s s1 → retouched s (set_network s1 G).
Proof. by intros [? ?]. Qed.

(** The inner loop touches the store at the second winner only, and the
    graph by one [add_edge] at most. *)
Lemma second_winner_loop_spec fuel x Mv i tg T s r s' :
  second_winner_loop fuel x Mv i tg T s = (r, s') →
  retouched s s' ∧
  match r with
  | Ok l =>
      IFW_of l = Some i ∧
      match ISW_of l with
      | Some j =>
          ∃ pj mj, prototypes s !! j = Some pj ∧ Mv !! j = Some mj
                   ∧ Qle_bool (vigilance s) mj = true
                   ∧ (network s' = nx.add_edge (network s) tg (tag pj)
                      ∨ network s' = network s)
      | None => network s' = network s
      end
  | _ => network s' = network s
  end.
Proof.
  revert T s. induction fuel as [|fuel IH]; intros T s; simpl.
  - destruct (all_negative T); mrun; intros [= <- <-]; done.
  - destruct (all_negative T); mrun; [intros [= <- <-]; done|].
    repeat (mcase; mrun); try (intros [= <- <-]; done); try apply IH.
    all: clear IH; intros [= <- <-]; inserted.
    all: match goal with
         | H : prototypes ?s !! ?n = Some ?p
           |- context [set_weights ?p ?w] =>
             assert (retouched s (set_prototypes s
                       (<[n := set_weights p w]> (prototypes s))))
               by (by eapply retouched_insert)
         end.
    + split; [by apply retouched_set_network|]. simpl. eauto 10.
    + split; [done|]. simpl. eauto 10.
Qed.

Lemma first_winner_loop_spec fuel x Mv T s r s' :
  first_winner_loop fuel x Mv T s = (r, s') →
  retouched s s' ∧
  match r with
  | Ok l =>
      match IFW_of l, ISW_of l with
      | Some i, Some j => joined s s' Mv i j
      | _, _ => network s' = network s
      end
  | _ => network s' = network s
  end.
Proof.
  revert T s. induction fuel as [|fuel IH]; intros T s; simpl.
  - destruct (all_negative T); mrun; intros [= <- <-]; done.
  - destruct (all_negative T); mrun; [intros [= <- <-]; done|].
    repeat (mcase; mrun); try (intros [= <- <-]; done); try apply IH.
    all: inserted; clear IH.
    all: match goal with
         | H : prototypes ?s !! ?n = Some ?p
           |- context [set_prototypes (set_prototypes _ ?L1) ?L2] =>
             assert (retouched s (set_prototypes (set_prototypes s L1) L2))
               as Hs2
               by (etrans;
                   [by eapply (retouched_insert s n p (set_weights p _))
                   |eapply (retouched_insert (set_prototypes s L1) n);
                    [simpl; apply list_lookup_insert_eq;
                     by eapply lookup_lt_Some|done]])
         end.
    + intros Hrun. apply second_winner_loop_spec in Hrun as [Hret Hpost].
      split; [by etrans|].
      destruct r as [l0| |]; [|done..]. destruct Hpost as [-> Hpost].
      destruct (ISW_of l0) as [j|]; [|done].
      destruct Hpost as (pj & mj & Hpj & Hmj & Hv & Hnet).
      destruct Hs2 as [_ Hs2]. simpl in Hs2.
      destruct (Forall2_lookup_r _ _ _ _ _ Hs2 Hpj)
        as (pj0 & Hpj0 & Htag & _).
      exists p, pj0, q0, mj. simpl in *. rewrite <- Htag. done.
    + intros [= <- <-]. done.
Qed.

(** *** The loops return *)

Lemma second_winner_loop_fuel fuel x Mv i tg T s :
  (live T <= fuel)%nat →
  (second_winner_loop fuel x Mv i tg T s).1 ≠ OutOfFuel.
Proof.
  revert T s. induction fuel as [|fuel IH]; intros T s Hf; simpl;
    destruct (all_negative T) eqn:Hall; try done.
  - apply all_negative_live in Hall. lia.
  - destruct (index_of_max_live T s Hall) as (j & y & Hj & Hy & Hy0).
    unfold mbind at 1, M_bind at 1. rewrite Hj. clear Hj.
    mrun. repeat (mcase; mrun); try done.
    all: apply IH; pose proof (live_exhaust T j y Hy Hy0); lia.
Qed.

Lemma first_winner_loop_fuel fuel x Mv T s :
  (live T <= fuel)%nat →
  (first_winner_loop fuel x Mv T s).1 ≠ OutOfFuel.
Proof.
  revert T s. induction fuel as [|fuel IH]; intros T s Hf; simpl;
    destruct (all_negative T) eqn:Hall; try done.
  - apply all_negative_live in Hall. lia.
  - destruct (index_of_max_live T s Hall) as (j & y & Hj & Hy & Hy0).
    unfold mbind at 1, M_bind at 1. rewrite Hj. clear Hj.
    mrun. repeat (mcase; mrun); try done.
    all: try (apply second_winner_loop_fuel, live_le_length).
    all: apply IH; pose proof (live_exhaust T j y Hy Hy0); lia.
Qed.

(** *** The two winners are different prototypes *)

Lemma second_winner_loop_distinct fuel x Mv i tg T s l s' j y :
  T !! i = Some y → Qltb y 0 = true →
  second_winner_loop fuel x Mv i tg T s = (Ok l, s') →
  ISW_of l = Some j → j ≠ i.
Proof.
  revert T s. induction fuel as [|fuel IH]; intros T s Hy Hy0; simpl;
    destruct (all_negative T) eqn:Hall; mrun; try by intros [= <- <-].
  destruct (index_of_max_live T s Hall) as (k & z & Hk & Hz & Hz0).
  assert (k ≠ i) as Hki by (intros ->; congruence).
  revert Hk. mrun. intros Hk.
  destruct (py_max T) as [q|]; [|done].
  destruct (py_index q T) as [k'|]; [|done]. injection Hk as ->.
  repeat (mcase; mrun); try done.
  all: try (intros [= <- <-]; simpl; congruence).
  all: apply IH; [by rewrite list_lookup_insert_ne|done].
Qed.

Lemma first_winner_loop_distinct fuel x Mv T s l s' i j :
  first_winner_loop fuel x Mv T s = (Ok l, s') →
  IFW_of l = Some i → ISW_of l = Some j → j ≠ i.
Proof.
  revert T s. induction fuel as [|fuel IH]; intros T s; simpl;
    destruct (all_negative T) eqn:Hall; mrun; try by intros [= <- <-].
  destruct (index_of_max_live T s Hall) as (k & z & Hk & Hz & Hz0).
  revert Hk. mrun. intros Hk.
  destruct (py_max T) as [q|]; [|done].
  destruct (py_index q T) as [k'|]; [|done]. injection Hk as ->.
  repeat (mcase; mrun); try done; try apply IH.
  intros Hrun Hi Hj.
  pose proof (second_winner_loop_spec _ _ _ _ _ _ _ _ _ Hrun)
    as (_ & Hi' & _).
  rewrite Hi in Hi'. injection Hi' as ->.
  eapply (second_winner_loop_distinct _ _ _ _ _ _ _ _ _ _ (-1)%Q);
    [|done|exact Hrun|exact Hj].
  apply list_lookup_insert_eq. by eapply lookup_lt_Some.
Qed.

Lemma winners_resonate s input i j :
  winners s input i j →
  i ≠ j ∧ resonates s input i ∧ resonates s input j.
Proof.
  intros (T & Mv & l & s1 & HT & HM & Hrun & Hi & Hj). split.
  - intros ->. by eapply first_winner_loop_distinct.
  - pose proof (first_winner_loop_spec _ _ _ _ _ _ _ Hrun) as [_ Hpost].
    rewrite Hi, Hj in Hpost.
    destruct Hpost as (pi & pj & mi & mj & _ & _ & ? & ? & ? & ? & _).
    split; [by exists Mv, mi|by exists Mv, mj].
Qed.

(** *** [__add_prototype] and [__prune] *)

Lemma __add_prototype_eq w tg b s :
  __add_prototype w tg b s =
    (Ok (), set_network
              (set_prototypes s (prototypes s ++ [new_prototype w tg b]))
              (nx.add_node (network s) tg)).
Proof. reflexivity. Qed.

(** The loop of [__prune] from index [n] on: every stale prototype from
    there on is deleted and its tag recorded, and no other one. *)
Lemma prune_loop_eq fuel n deletedtags s :
  (length (prototypes s) - n <= fuel)%nat →
  prune_loop fuel (Z.of_nat n) deletedtags s =
    (Ok (deletedtags
           ++ (tag <$> filter (stale s) (drop n (prototypes s)))),
     set_prototypes s
       (take n (prototypes s)
          ++ filter (λ p, ¬ stale s p) (drop n (prototypes s)))).
Proof.
  revert n deletedtags s.
  induction fuel as [|fuel IH]; intros n del s Hf.
  - simpl. mrun. rewrite bool_decide_eq_false_2 by lia.
    rewrite drop_ge, take_ge by lia. simpl.
    rewrite !app_nil_r. by destruct s.
  - simpl. mrun. case_bool_decide as Hn.
    2:{ rewrite drop_ge, take_ge by lia. simpl.
        rewrite !app_nil_r. by destruct s. }
    rewrite Nat2Z.id.
    destruct (prototypes s !! n) as [p|] eqn:Hp.
    2:{ apply lookup_ge_None in Hp. lia. }
    rewrite (drop_S _ _ _ Hp), !filter_cons. fold (stale s p).
    case_bool_decide as Hst.
    + replace (Z.of_nat n - 1 + 1) with (Z.of_nat n) by lia.
      rewrite IH.
      2:{ simpl. rewrite length_delete by eauto. lia. }
      simpl. rewrite decide_True by done.
      rewrite (decide_False (P := ¬ stale s p)) by tauto.
      rewrite delete_take_drop.
      rewrite take_app_length' by (rewrite length_take; lia).
      rewrite drop_app_length' by (rewrite length_take; lia).
      simpl. by rewrite <- app_assoc.
    + replace (Z.of_nat n + 1) with (Z.of_nat (S n)) by lia.
      rewrite IH by lia.
      rewrite decide_False by done. rewrite decide_True by done.
      rewrite (take_S_r _ _ _ Hp), <- app_assoc. done.
Qed.

Lemma __prune_eq s :
  __prune s = (Ok (), pruned s).
Proof.
  unfold __prune. mrun.
  change 0 with (Z.of_nat 0).
  rewrite prune_loop_eq by lia. done.
Qed.

(** *** The search and the creation *)

Lemma resonated_retouched input s s1 new :
  retouched s s1 →
  (network s1 = network s
   ∨ ∃ i j pi pj,
       winners s input i j
       ∧ prototypes s !! i = Some pi ∧ prototypes s !! j = Some pj
       ∧ network s1 = nx.add_edge (network s) (tag pi) (tag pj)) →
  (new = []
   ∨ new = [new_prototype input (fresh_tag (cycle s)) (cycle s)]) →
  resonated input s
    (set_network (set_prototypes s1 (prototypes s1 ++ new))
       (foldl nx.add_node (network s1) (tag <$> new))).
Proof.
  intros [Hc Hp] HG Hnew. split; [done|].
  exists (prototypes s1), new, (network s1). done.
Qed.

Lemma resonated_searched input s s1 :
  retouched s s1 →
  (network s1 = network s
   ∨ ∃ i j pi pj,
       winners s input i j
       ∧ prototypes s !! i = Some pi ∧ prototypes s !! j = Some pj
       ∧ network s1 = nx.add_edge (network s) (tag pi) (tag pj)) →
  resonated input s s1.
Proof.
  intros [Hc Hp] HG. split; [done|].
  exists (prototypes s1), [], (network s1). rewrite app_nil_r.
  split_and!; try done. by left.
Qed.

Lemma resonate_spec input s r s' :
  resonate input s = (r, s') → resonated input s s'.
Proof.
  unfold resonate. mrun. case_bool_decide as Hlen.
  - rewrite __add_prototype_eq. intros [= <- <-].
    apply (resonated_retouched input s s
             [new_prototype input (fresh_tag (cycle s)) (cycle s)]);
      [done|by left|by right].
  - destruct (choice s input) as [e|T] eqn:HT.
    { intros [= <- <-]. apply resonated_searched; [done|by left]. }
    destruct (match_ s input) as [e|Mv] eqn:HM.
    { intros [= <- <-]. apply resonated_searched; [done|by left]. }
    destruct (first_winner_loop (length T) input Mv T s)
      as [[l| |] s1] eqn:Hloop.
    all: pose proof (first_winner_loop_spec _ _ _ _ _ _ _ Hloop)
      as [Hret Hnet].
    2,3: intros [= <- <-]; apply resonated_searched; [done|by left].
    assert (network s1 = network s
            ∨ ∃ i j pi pj,
                winners s input i j
                ∧ prototypes s !! i = Some pi ∧ prototypes s !! j = Some pj
                ∧ network s1 = nx.add_edge (network s) (tag pi) (tag pj))
      as HG.
    { destruct (IFW_of l) as [i|] eqn:Hi; [|by left].
      destruct (ISW_of l) as [j|] eqn:Hj; [|by left].
      destruct Hnet as (pi & pj & mi & mj & ? & ? & ? & ? & ? & ? & [?|?]);
        [|by left].
      right. exists i, j, pi, pj. split_and!; try done.
      by exists T, Mv, l, s1. }
    destruct (any_positive (T_of l)); simpl.
    + intros [= <- <-]. by apply resonated_searched.
    + rewrite __add_prototype_eq. intros [= <- <-].
      assert (cycle s1 = cycle s) as -> by apply Hret.
      apply (resonated_retouched input s s1
               [new_prototype input (fresh_tag (cycle s)) (cycle s)]);
        [done..|by right].
Qed.

(** *** [learn] in three steps *)

Lemma learn_eq input s :
  learn input s =
    match resonate input (set_cycle s (cycle s + 1)) with
    | (Ok _, s2) =>
        if bool_decide (cycle s2 > tau s2) then __prune s2 else (Ok (), s2)
    | (Raise e, s2) => (Raise e, s2)
    | (OutOfFuel, s2) => (OutOfFuel, s2)
    end.
Proof.
  unfold learn. unfold mbind at 1 2 3, M_bind, get, put. simpl.
  destruct (resonate input _) as [[[]| |] s2]; try done.
  unfold mbind, M_bind. simpl. by case_bool_decide.
Qed.

Lemma resonate_returns input s : (resonate input s).1 ≠ OutOfFuel.
Proof.
  unfold resonate. mrun. case_bool_decide; [done|].
  destruct (choice s input) as [e|T]; [done|].
  destruct (match_ s input) as [e|Mv]; [done|].
  pose proof (first_winner_loop_fuel (length T) input Mv T s
                (live_le_length T)) as Hfuel.
  destruct (first_winner_loop (length T) input Mv T s) as [[l| |] s1];
    simpl in *; try done.
  by destruct (any_positive (T_of l)).
Qed.

(** [learn] returns or raises: the fuel of its loops is never used up. *)
Lemma learn_returns input s : (learn input s).1 ≠ OutOfFuel.
Proof.
  rewrite learn_eq.
  pose proof (resonate_returns input (set_cycle s (cycle s + 1))) as H.
  destruct (resonate input _) as [[[]| |] s2]; simpl in *; try done.
  case_bool_decide; [|done]. by rewrite __prune_eq.
Qed.

Lemma learn_spec input s r s' :
  learn input s = (r, s') →
  ∃ s2, resonated input (set_cycle s (cycle s + 1)) s2
        ∧ ((r = Ok () ∧ cycle s2 > tau s2 ∧ s' = pruned s2)
           ∨ (s' = s2 ∧ (r = Ok () → ¬ cycle s2 > tau s2))).
Proof.
  rewrite learn_eq. intros Hl.
  destruct (resonate input _) as [[[]| |] s2] eqn:Hres;
    apply resonate_spec in Hres; exists s2; (split; [done|]).
  - case_bool_decide as Hc.
    + rewrite __prune_eq in Hl. injection Hl as <- <-. by left.
    + injection Hl as <- <-. by right.
  - injection Hl as <- <-. by right.
  - injection Hl as <- <-. by right.
Qed.

(** *** The store and the graph after [resonate] and [__prune] *)

Lemma same_meta_tags (l k : list prototype) :
  Forall2 same_meta l k → tag <$> k = tag <$> l.
Proof.
  induction 1 as [|p q l k (Ht & _) _ IH]; [done|].
  by rewrite !fmap_cons, Ht, IH.
Qed.

Lemma resonated_cycle input s s' : resonated input s s' → cycle s' = cycle s.
Proof. intros [Hc _]. apply Hc. Qed.

Lemma resonated_tags input s s' :
  resonated input s s' →
  tags s' = tags s ∨ tags s' = tags s ++ [fresh_tag (cycle s)].
Proof.
  intros (_ & ps & new & G & Hps & Hmeta & Hnew & _).
  unfold tags. rewrite Hps, fmap_app, (same_meta_tags _ _ Hmeta).
  destruct Hnew as [->| ->]; simpl; [left|by right].
  by rewrite app_nil_r.
Qed.

Lemma resonated_prototype input s s' p' :
  resonated input s s' → p' ∈ prototypes s' →
  (∃ p, p ∈ prototypes s ∧ same_meta p p')
  ∨ p' = new_prototype input (fresh_tag (cycle s)) (cycle s).
Proof.
  intros (_ & ps & new & G & Hps & Hmeta & Hnew & _) Hp'.
  rewrite Hps, elem_of_app in Hp'. destruct Hp' as [Hp'|Hp'].
  - left. apply list_elem_of_lookup in Hp' as [i Hi].
    destruct (Forall2_lookup_r _ _ _ _ _ Hmeta Hi) as (p & Hp & Hpp').
    exists p. split; [|done]. by eapply list_elem_of_lookup_2.
  - right. destruct Hnew as [->| ->]; [by inversion Hp'|].
    by apply list_elem_of_singleton in Hp'.
Qed.

Lemma resonated_nodes input s s' :
  (∀ t, t ∈ nx.nodes (network s) ↔ t ∈ tags s) →
  resonated input s s' →
  ∀ t, t ∈ nx.nodes (network s') ↔ t ∈ tags s'.
Proof.
  intros Hs (_ & ps & new & G & Hps & Hmeta & Hnew & Hnet & HG) t.
  assert (∀ t, t ∈ nx.nodes G ↔ t ∈ tags s) as HGn.
  { intros u. destruct HG as [->|(i & j & pi & pj & _ & Hi & Hj & ->)];
      [done|].
    rewrite nx_facts.elem_of_nodes_add_edge, Hs.
    apply list_elem_of_lookup_2 in Hi, Hj.
    assert (tag pi ∈ tags s) by (by apply list_elem_of_fmap_2).
    assert (tag pj ∈ tags s) by (by apply list_elem_of_fmap_2).
    naive_solver. }
  unfold tags. rewrite Hnet, Hps, fmap_app, (same_meta_tags _ _ Hmeta).
  destruct Hnew as [->| ->]; simpl.
  - rewrite app_nil_r. apply HGn.
  - rewrite nx_facts.elem_of_nodes_add_node, elem_of_app, HGn.
    by rewrite list_elem_of_singleton.
Qed.

Lemma resonated_edges input s s' :
  resonated input s s' →
  (∀ u v, nx.has_edge (network s') u v = true →
          nx.has_edge (network s) u v = true)
  ∨ ∃ i j pi pj,
      winners s input i j
      ∧ prototypes s !! i = Some pi ∧ prototypes s !! j = Some pj
      ∧ ∀ u v, nx.has_edge (network s') u v = true →
               nx.has_edge (network s) u v = true
               ∨ (u = tag pi ∧ v = tag pj) ∨ (u = tag pj ∧ v = tag pi).
Proof.
  intros (_ & ps & new & G & Hps & Hmeta & Hnew & Hnet & HG).
  assert (∀ u v, nx.has_edge (network s') u v = true →
                 nx.has_edge G u v = true) as Hadd.
  { intros u v. rewrite Hnet.
    destruct Hnew as [->| ->]; simpl; [done|].
    apply nx_facts.has_edge_add_node. }
  destruct HG as [->|(i & j & pi & pj & Hw & Hi & Hj & ->)]; [by left|].
  right. exists i, j, pi, pj. split_and!; try done.
  intros u v Huv. by apply nx_facts.has_edge_add_edge, Hadd.
Qed.

Lemma fresh_tag_inj c c' : fresh_tag c = fresh_tag c' → c = c'.
Proof.
  unfold fresh_tag. simpl. intros [= H]. exact (pretty_Z_inj _ _ H).
Qed.

Lemma NoDup_fmap_eq {X Y} (f : X → Y) (l : list X) x y :
  NoDup (f <$> l) → x ∈ l → y ∈ l → f x = f y → x = y.
Proof.
  induction l as [|z l IH]; intros Hnd Hx Hy Hf; [by inversion Hx|].
  rewrite fmap_cons in Hnd. apply NoDup_cons in Hnd as [Hz Hnd].
  apply elem_of_cons in Hx as [->|Hx]; apply elem_of_cons in Hy as [->|Hy];
    try done.
  - destruct Hz. rewrite Hf. by apply list_elem_of_fmap_2.
  - destruct Hz. rewrite <- Hf. by apply list_elem_of_fmap_2.
  - by apply IH.
Qed.

Lemma elem_of_tags_pruned s t :
  NoDup (tags s) →
  t ∈ tags (pruned s) ↔
    t ∈ tags s ∧ t ∉ tag <$> filter (stale s) (prototypes s).
Proof.
  intros Hnd. unfold tags, pruned. simpl.
  rewrite !list_elem_of_fmap. split.
  - intros (p & -> & Hp). apply list_elem_of_filter in Hp as [Hst Hp].
    split; [by exists p|].
    intros (q & Hq & Hq').
    apply list_elem_of_filter in Hq' as [Hstq Hq'].
    by rewrite (NoDup_fmap_eq tag _ p q Hnd Hp Hq' Hq) in Hst.
  - intros [(p & -> & Hp) Hnot]. exists p. split; [done|].
    apply list_elem_of_filter. split; [|done].
    intros Hst. apply Hnot. exists p. split; [done|].
    by apply list_elem_of_filter.
Qed.

Lemma well_formed_pruned s : well_formed s → well_formed (pruned s).
Proof.
  intros (Hnd & Hp & Hn). split_and!.
  - unfold tags, pruned. simpl.
    eapply sublist_NoDup; [exact Hnd|].
    apply fmap_sublist, sublist_filter.
  - intros p Hin. simpl in Hin.
    apply list_elem_of_filter in Hin as [_ Hin]. by apply Hp.
  - intros t. rewrite (elem_of_tags_pruned s t Hnd). simpl.
    by rewrite nx_facts.elem_of_nodes_remove_nodes_from, Hn.
Qed.

Lemma well_formed_resonated input s s2 :
  well_formed s →
  resonated input (set_cycle s (cycle s + 1)) s2 →
  well_formed s2.
Proof.
  intros (Hnd & Hp & Hn) Hres.
  pose proof (resonated_cycle _ _ _ Hres) as Hc. simpl in Hc.
  split_and!.
  - destruct (resonated_tags _ _ _ Hres) as [-> | ->]; [done|].
    apply NoDup_app. split_and!; [done| |apply NoDup_singleton].
    intros t (p & -> & Hin)%list_elem_of_fmap Ht.
    apply list_elem_of_singleton in Ht.
    destruct (Hp p Hin) as (Htag & Hb & _). rewrite Htag in Ht.
    apply fresh_tag_inj in Ht. simpl in Ht. lia.
  - intros p' Hin.
    destruct (resonated_prototype _ _ _ _ Hres Hin)
      as [(p & Hp0 & Ht & Hb & Hl)| ->].
    + destruct (Hp p Hp0) as (? & ? & ?). rewrite Ht, Hb, Hl, Hc.
      split_and!; [done|lia|done].
    + simpl. split_and!; [done|lia|done].
  - by apply (resonated_nodes input (set_cycle s (cycle s + 1))).
Qed.

(** [learn] keeps the invariant, whether it returns or raises. *)
Lemma well_formed_learn input s :
  well_formed s → well_formed (learn input s).2.
Proof.
  intros Hs. destruct (learn input s) as [r s'] eqn:Hl.
  apply learn_spec in Hl as (s2 & Hres & Hcase).
  pose proof (well_formed_resonated _ _ _ Hs Hres) as Hs2. simpl.
  destruct Hcase as [(_ & _ & ->)|[-> _]]; [|done].
  by apply well_formed_pruned.
Qed.

Lemma well_formed_blank v a b b2 ph ta :
  well_formed (blank v a b b2 ph ta).
Proof.
  split_and!.
  - apply NoDup_nil_2.
  - intros p Hp. by inversion Hp.
  - done.
Qed.

Lemma well_formed_learn_all inputs s :
  well_formed s → well_formed (learn_all s inputs).
Proof.
  revert s. induction inputs as [|x inputs IH]; intros s Hs; [done|].
  simpl. apply IH. by apply well_formed_learn.
Qed.

Lemma learn_cycle input s : cycle (learn input s).2 = cycle s + 1.
Proof.
  destruct (learn input s) as [r s'] eqn:Hl.
  apply learn_spec in Hl as (s2 & Hres & Hcase).
  apply resonated_cycle in Hres. simpl in *.
  by destruct Hcase as [(_ & _ & ->)|[-> _]].
Qed.

Lemma learn_config input s : same_config (set_cycle s (cycle s + 1))
                               (learn input s).2.
Proof.
  destruct (learn input s) as [r s'] eqn:Hl.
  apply learn_spec in Hl as (s2 & [Hc _] & Hcase). simpl.
  by destruct Hcase as [(_ & _ & ->)|[-> _]].
Qed.

Lemma learn_all_cons s input inputs :
  learn_all s (input :: inputs) = learn_all (learn input s).2 inputs.
Proof. done. Qed.

Lemma learn_all_cycle inputs s :
  cycle (learn_all s inputs) = cycle s + Z.of_nat (length inputs).
Proof.
  revert s. induction inputs as [|x inputs IH]; intros s; simpl; [lia|].
  fold (learn_all (learn x s).2 inputs). rewrite IH, learn_cycle. lia.
Qed.

Lemma learn_all_tau inputs s : tau (learn_all s inputs) = tau s.
Proof.
  revert s. induction inputs as [|x inputs IH]; intros s; simpl; [done|].
  fold (learn_all (learn x s).2 inputs). rewrite IH.
  apply (learn_config x s).
Qed.

(** A call adds at most the tag of its cycle to the store. *)
Lemma learn_tags input s t :
  t ∈ tags (learn input s).2 →
  t ∈ tags s ∨ t = fresh_tag (cycle s + 1).
Proof.
  destruct (learn input s) as [r s'] eqn:Hl.
  apply learn_spec in Hl as (s2 & Hres & Hcase). simpl.
  assert (t ∈ tags s2 → t ∈ tags s ∨ t = fresh_tag (cycle s + 1)) as H2.
  { destruct (resonated_tags _ _ _ Hres) as [-> | ->]; [by left|].
    rewrite elem_of_app, list_elem_of_singleton. done. }
  destruct Hcase as [(_ & _ & ->)|[-> _]]; [|done].
  intros (p & -> & Hp)%list_elem_of_fmap. apply H2.
  simpl in Hp. apply list_elem_of_filter in Hp as [_ Hp].
  by apply list_elem_of_fmap_2.
Qed.


(** ** The properties of the module *)

(** C3. After every sequence of [learn] calls on a new object, returning
    or raising, the node set of the graph is the set of the tags in the
    store: a tag is a node exactly when a prototype carries it. *)
Theorem graph_nodes_mirror_store v a b b2 ph ta inputs t :
  t ∈ nx.nodes (network (learn_all (blank v a b b2 ph ta) inputs))
  ↔ t ∈ tags (learn_all (blank v a b b2 ph ta) inputs).
Proof.
  apply (well_formed_learn_all inputs _ (well_formed_blank v a b b2 ph ta)).
Qed.


(** C8. In every object reached from a new one the tags of the store are
    pairwise distinct and each is the tag [p<c>] of a cycle [c] that has
    been reached; a call can add no tag but the one of its own cycle, and
    the tags of different cycles differ.  So a tag that was in the store
    and has left it never comes back, whatever is learnt afterwards. *)
Theorem tags_unique_for_life v a b b2 ph ta inputs more more' t :
  let s := learn_all (blank v a b b2 ph ta) inputs in
  NoDup (tags s)
  ∧ (∀ t', t' ∈ tags s → ∃ c, c <= cycle s ∧ t' = fresh_tag c)
  ∧ (∀ input t', t' ∈ tags (learn input s).2 →
                 t' ∈ tags s ∨ t' = fresh_tag (cycle s + 1))
  ∧ (∀ c c', fresh_tag c = fresh_tag c' → c = c')
  ∧ (t ∈ tags s → t ∉ tags (learn_all s more) →
     t ∉ tags (learn_all (learn_all s more) more')).
Proof.
  intros s.
  pose proof (well_formed_learn_all inputs _
                (well_formed_blank v a b b2 ph ta)) as (Hnd & Hp & _).
  fold s in Hnd, Hp.
  assert (∀ t', t' ∈ tags s → ∃ c, c <= cycle s ∧ t' = fresh_tag c)
    as Hknown.
  { intros t' (p & -> & Hin)%list_elem_of_fmap.
    destruct (Hp p Hin) as (Htag & Hb & _). by exists (birth p). }
  split_and!; [done|done|intros x t'; apply learn_tags
              |apply fresh_tag_inj|].
  intros (c & Hc & ->)%Hknown Hgone.
  assert (c <= cycle (learn_all s more)) as Hc'.
  { rewrite learn_all_cycle. lia. }
  clear Hknown Hp Hnd Hc.
  generalize dependent (learn_all s more). clear s.
  induction more' as [|x more' IH]; intros s1 Hgone Hc; [done|].
  rewrite learn_all_cons. apply IH.
  - intros [Hold|Hnew]%learn_tags; [done|].
    apply fresh_tag_inj in Hnew. lia.
  - rewrite learn_cycle. lia.
Qed.

(** C10. No call writes [lastactive]: every prototype found after a call
    on a reachable object is either the one created by this call or a
    prototype of the store before with the same tag, birth and
    [lastactive]; so [lastactive] is the value given at creation, and the
    staleness test compares the cycle counter with a function of the
    birth cycle alone (with the birth cycle itself when the constructor
    starts [lastactive] there). *)
Theorem lastactive_never_refreshed v a b b2 ph ta inputs input p' :
  let s := learn_all (blank v a b b2 ph ta) inputs in
  let s' := (learn input s).2 in
  p' ∈ prototypes s' →
  (p' = new_prototype input (fresh_tag (cycle s + 1)) (cycle s + 1)
   ∨ ∃ p, p ∈ prototypes s ∧ tag p' = tag p ∧ birth p' = birth p
          ∧ lastactive p' = lastactive p)
  ∧ lastactive p' = lastactive0 (birth p')
  ∧ (stale s' p' ↔ cycle s' - lastactive0 (birth p') > phi s')
  ∧ ((∀ c, lastactive0 c = c) →
     (stale s' p' ↔ cycle s' - birth p' > phi s')).
Proof.
  intros s s' Hin.
  pose proof (well_formed_learn_all inputs _
                (well_formed_blank v a b b2 ph ta)) as Hs. fold s in Hs.
  pose proof (well_formed_learn input s Hs) as (_ & Hp' & _).
  fold s' in Hp'. destruct (Hp' p' Hin) as (_ & _ & Hla).
  split_and!; [|done|unfold stale; by rewrite Hla|].
  - subst s'. destruct (learn input s) as [r s''] eqn:Hl.
    apply learn_spec in Hl as (s2 & Hres & Hcase). simpl in Hin.
    assert (p' ∈ prototypes s2) as Hin2.
    { destruct Hcase as [(_ & _ & ->)|[-> _]]; [|done].
      simpl in Hin. by apply list_elem_of_filter in Hin as [_ Hin]. }
    destruct (resonated_prototype _ _ _ _ Hres Hin2) as [(p & ? & ?)|Hnew].
    + right. by exists p.
    + by left.
  - intros Hid. unfold stale. by rewrite Hla, Hid.
Qed.

(** C4. When a call on a reachable object returns with the cycle counter
    above [tau], every prototype of the store before that is stale at the
    new cycle is gone: its tag is neither in the store nor in the graph,
    and no stale prototype is left in the store, so the forward loop of
    [__prune] skips none.  A prototype that was stale above [tau] before
    the call is stale at the new cycle, as the call moves the cycle counter
    up and leaves [lastactive] and [phi] alone. *)
Theorem stale_prototypes_removed v a b b2 ph ta inputs input s' p :
  let s := learn_all (blank v a b b2 ph ta) inputs in
  learn input s = (Ok (), s') →
  cycle s' > tau s' →
  p ∈ prototypes s →
  cycle s' - lastactive p > phi s' →
  (tag p ∉ tags s') ∧ (tag p ∉ nx.nodes (network s'))
  ∧ Forall (λ q, ¬ stale s' q) (prototypes s').
Proof.
  intros s Hl Hwarm Hin Hstale.
  pose proof (well_formed_learn_all inputs _
                (well_formed_blank v a b b2 ph ta)) as Hs. fold s in Hs.
  apply learn_spec in Hl as (s2 & Hres & Hcase).
  pose proof (well_formed_resonated _ _ _ Hs Hres) as Hs2.
  destruct Hcase as [(_ & _ & ->)|[-> Hno]]; [|by destruct Hno].
  assert (∃ p2, p2 ∈ prototypes s2 ∧ same_meta p p2) as (p2 & Hin2 & Hm).
  { destruct Hres as (_ & ps & new & G & Hps & Hmeta & _).
    apply list_elem_of_lookup in Hin as [i Hi]. simpl in Hmeta.
    destruct (Forall2_lookup_l _ _ _ _ _ Hmeta Hi) as (p2 & Hp2 & Hpp2).
    exists p2. split; [|done]. rewrite Hps, elem_of_app. left.
    by eapply list_elem_of_lookup_2. }
  destruct Hm as (Htag & _ & Hla). rewrite <- Htag.
  assert (tag p2 ∉ tags (pruned s2)) as Hgone.
  { rewrite (elem_of_tags_pruned s2 _ (proj1 Hs2)).
    intros [_ Hnot]. apply Hnot, list_elem_of_fmap_2.
    apply list_elem_of_filter. split; [|done].
    unfold stale. rewrite Hla. exact Hstale. }
  split_and!; [done| |].
  - destruct (well_formed_pruned s2 Hs2) as (_ & _ & Hn). by rewrite Hn.
  - apply Forall_forall. intros q Hq. simpl in Hq.
    by apply list_elem_of_filter in Hq as [Hq _].
Qed.

(** C9. A call, from any object, adds at most one edge to the graph:
    either every edge after the call was there before, or the search
    ended with a first winner and a second winner, two different
    prototypes that both pass the vigilance test, and every edge after the
    call was there before or joins the tags of these two. *)
Theorem at_most_one_new_edge input s r s' :
  learn input s = (r, s') →
  (∀ u v, nx.has_edge (network s') u v = true →
          nx.has_edge (network s) u v = true)
  ∨ ∃ i j pi pj,
      winners (set_cycle s (cycle s + 1)) input i j
      ∧ (i ≠ j
         ∧ resonates (set_cycle s (cycle s + 1)) input i
         ∧ resonates (set_cycle s (cycle s + 1)) input j)
      ∧ prototypes s !! i = Some pi ∧ prototypes s !! j = Some pj
      ∧ ∀ u v, nx.has_edge (network s') u v = true →
               nx.has_edge (network s) u v = true
               ∨ (u = tag pi ∧ v = tag pj) ∨ (u = tag pj ∧ v = tag pi).
Proof.
  intros Hl. apply learn_spec in Hl as (s2 & Hres & Hcase).
  assert (∀ u v, nx.has_edge (network s') u v = true →
                 nx.has_edge (network s2) u v = true) as Hprune.
  { destruct Hcase as [(_ & _ & ->)|[-> _]]; [|done].
    intros u v. apply nx_facts.has_edge_remove_nodes_from. }
  destruct (resonated_edges _ _ _ Hres)
    as [Hold|(i & j & pi & pj & Hw & Hi & Hj & Hnew)].
  - left. intros u v Huv. by apply Hold, Hprune.
  - right. exists i, j, pi, pj.
    split; [done|]. split; [by apply winners_resonate|].
    split_and!; try done.
    intros u v Huv. by apply Hnew, Hprune.
Qed.

(** C5, as the code has it.  When [choice] or [match] raises on a non
    empty store, [learn] raises the same exception; the store, the graph
    and the configuration are as before, but the cycle counter has been
    incremented. *)
Theorem scoring_failure_moves_cycle_only input s e :
  prototypes s ≠ [] →
  choice (set_cycle s (cycle s + 1)) input = inl e
  ∨ (∃ T, choice (set_cycle s (cycle s + 1)) input = inr T
          ∧ match_ (set_cycle s (cycle s + 1)) input = inl e) →
  learn input s = (Raise e, set_cycle s (cycle s + 1)).
Proof.
  intros Hne Hraise. rewrite learn_eq. unfold resonate. mrun.
  rewrite bool_decide_eq_false_2 by (by destruct (prototypes s)).
  destruct Hraise as [-> |(T & -> & ->)]; done.
Qed.

(** C6, as the code has it.  The constructor checks nothing itself: when
    the constructor of the base class returns, the object is built for
    any [beta2], [phi] and [tau], negative ones included, and holds them
    as given, with the cycle counter at 0, an empty store and an empty
    graph. *)
Theorem constructor_checks_nothing v a b b2 ph ta :
  base_accepts v a b = true →
  ∃ s, __init__ v a b b2 ph ta = Some s
       ∧ beta2 s = b2 ∧ phi s = ph ∧ tau s = ta
       ∧ cycle s = 0 ∧ prototypes s = [] ∧ network s = nx.empty.
Proof.
  intros Hbase. unfold __init__. rewrite Hbase. by eexists.
Qed.

(** On vectors of one dimension the update of [learn] is the fuzzy-min
    rule. *)
Lemma fuzzy_min_update_eq rate input w :
  length input = length w →
  fuzzy_min_update rate input w = Some (fuzzy_min rate input w).
Proof.
  intros Hlen. unfold fuzzy_min_update, np.minimum, np.add, np.broadcast.
  rewrite bool_decide_eq_true_2 by done. simpl.
  rewrite bool_decide_eq_true_2.
  2:{ unfold np.scale. rewrite !length_fmap, length_zip_with. lia. }
  f_equal. unfold fuzzy_min, np.scale. clear Hlen.
  revert w. induction input as [|x input IH]; intros [|a w]; simpl;
    try done.
  by rewrite IH.
Qed.

Lemma fuzzy_min_half input w :
  Forall2 Qeq (fuzzy_min (1#2) input w)
    (zip_with (λ x a, (1#2) * a + (1#2) * Qmin x a)%Q input w).
Proof.
  unfold fuzzy_min. revert w.
  induction input as [|x input IH]; intros [|a w]; simpl;
    constructor; [|apply IH].
  apply Qplus_comp; [|done]. by apply Qmult_comp.
Qed.

(** C1, as the code has it.  Vigilance 0.5, alpha 0.01, beta 0.5.  An
    input [A] is learnt by a new object and creates [p1]; then an input
    [B] of the dimension of [A] is learnt, whose choice score is not
    negative and whose match score is at least 0.5, and pruning does not
    remove [p1] at cycle 2.  Then [p1] is still the first prototype, its
    weights are [0.5·A + 0.5·min(B, A)] entry by entry, and the graph has
    no edge. *)
Theorem resonance_scenario b2 ph ta A B t m :
  let s1 := (learn A (blank (1#2) (1#100) (1#2) b2 ph ta)).2 in
  let s2 := (learn B s1).2 in
  length B = length A →
  ¬ (2 > ta ∧ 2 - lastactive0 1 > ph) →
  choice (set_cycle s1 (cycle s1 + 1)) B = inr [t] →
  Qltb t 0 = false →
  match_ (set_cycle s1 (cycle s1 + 1)) B = inr [m] →
  Qle_bool (1#2) m = true →
  prototypes s1 = [new_prototype A "p1" 1]
  ∧ ∃ p1, prototypes s2 !! 0%nat = Some p1
          ∧ tag p1 = "p1"
          ∧ weights p1 = fuzzy_min (1#2) B A
          ∧ Forall2 Qeq (weights p1)
              (zip_with (λ x a, (1#2) * a + (1#2) * Qmin x a)%Q B A)
          ∧ nx.edges (network s2) = [].
Proof.
  intros s1 s2 Hlen Hkeep.
  assert (s1 = Self (1#2) (1#100) (1#2) [new_prototype A "p1" 1]
                 b2 ph ta 1 [] (nx.mkGraph [("p1", [])])) as Hs1.
  { subst s1. rewrite learn_eq. unfold resonate. mrun.
    change (0 + 1) with 1. change (fresh_tag 1) with "p1".
    case_bool_decide as Hta; [|done].
    rewrite __prune_eq. unfold pruned, stale. simpl.
    rewrite !filter_cons, !filter_nil.
    repeat case_decide; simpl in *; try lia; done. }
  clearbody s1. subst s1. subst s2. simpl. intros HT Ht HM Hm.
  split; [done|].
  rewrite learn_eq. unfold resonate. mrun.
  rewrite HT, HM. simpl. unfold all_negative. simpl. rewrite Ht. simpl.
  mrun. rewrite Qeq_bool_refl. simpl. rewrite Hm.
  rewrite (fuzzy_min_update_eq _ _ _ Hlen). simpl.
  change (Qltb (-1) 0) with true. simpl.
  unfold any_positive. simpl. change (Qltb 0 (-1)) with false. simpl.
  change (1 + 1) with 2. change (fresh_tag 2) with "p2".
  exists (set_counter (set_weights (new_prototype A "p1" 1)
                         (fuzzy_min (1#2) B A)) (counter0 + 1)).
  assert (∀ s : StreamingTopoART,
            prototypes s !! 0%nat
            = Some (set_counter (set_weights (new_prototype A "p1" 1)
                                   (fuzzy_min (1#2) B A)) (counter0 + 1)) →
            nx.edges (network s) = [] →
            prototypes s !! 0%nat
            = Some (set_counter (set_weights (new_prototype A "p1" 1)
                                   (fuzzy_min (1#2) B A)) (counter0 + 1))
            ∧ "p1" = "p1"
            ∧ fuzzy_min (1#2) B A = fuzzy_min (1#2) B A
            ∧ Forall2 Qeq (fuzzy_min (1#2) B A)
                (zip_with (λ x a, (1#2) * a + (1#2) * Qmin x a)%Q B A)
            ∧ nx.edges (network s) = []) as Hgoal.
  { intros s H0 He. split_and!; [done..|apply fuzzy_min_half|done]. }
  apply Hgoal; (case_bool_decide as Hta; [|done]);
    rewrite __prune_eq; unfold pruned, stale; simpl;
    rewrite !filter_cons, !filter_nil;
    repeat case_decide; simpl in *; try lia; done.
Qed.

End Properties.

(** * Further properties *)

(** ** More facts on the graph operations *)

Module nx_more.
Import nx.

Lemma neighbors_is_Some a n : is_Some (neighbors a n) ↔ n ∈ a.*1.
Proof.
  induction a as [|[m nbrs] a IH]; simpl.
  - rewrite elem_of_nil. split; [by intros [? ?]|done].
  - rewrite elem_of_cons. destruct (decide (m = n)) as [->|Hne].
    + split; [by left|by eexists].
    + rewrite IH. naive_solver.
Qed.

Lemma has_edge_node G u v : has_edge G u v = true → u ∈ nodes G.
Proof.
  unfold has_edge, nodes. intros H. apply neighbors_is_Some.
  destruct (neighbors (adj G) u); [by eexists|done].
Qed.

(** An edge is reported from its first end in node order only. *)
Lemma edges_from_inv a b l seen :
  (a, b) ∈ edges_from l seen →
  (b ∉ seen) ∧ ∃ l1 nbrs l2, l = l1 ++ (a, nbrs) :: l2 ∧ b ∉ l1.*1.
Proof.
  revert seen. induction l as [|[n nbrs] l IH]; intros seen; simpl.
  - by intros ?%elem_of_nil.
  - rewrite elem_of_app. intros [Hin|Hin].
    + apply list_elem_of_fmap in Hin as (nbr & [= -> ->] & Hnbr).
      apply list_elem_of_filter in Hnbr as [Hseen _].
      split; [done|]. exists [], nbrs, l. split; [done|]. apply not_elem_of_nil.
    + apply IH in Hin as (Hseen & l1 & nb & l2 & -> & Hb).
      apply not_elem_of_cons in Hseen as [Hbn Hseen].
      split; [done|]. exists ((n, nbrs) :: l1), nb, l2. split; [done|].
      simpl. apply not_elem_of_cons. done.
Qed.

(** [G.edges] never lists an edge in both directions. *)
Lemma edges_one_direction G a b :
  (a, b) ∈ edges G → (b, a) ∈ edges G → a = b.
Proof.
  unfold edges. intros Hab Hba.
  apply edges_from_inv in Hab as (_ & l1 & na & l2 & E1 & Hb).
  apply edges_from_inv in Hba as (_ & l1' & nb & l2' & E2 & Ha).
  assert (adj G !! length l1 = Some (a, na)) as H1.
  { rewrite E1. by apply list_lookup_middle. }
  assert (adj G !! length l1' = Some (b, nb)) as H2.
  { rewrite E2. by apply list_lookup_middle. }
  destruct (lt_eq_lt_dec (length l1) (length l1')) as [[Hlt|Heq]|Hgt].
  - rewrite E2, lookup_app_l in H1 by done. destruct Ha.
    apply list_elem_of_lookup_2 in H1.
    by apply (list_elem_of_fmap_2 fst) in H1.
  - rewrite Heq in H1. congruence.
  - rewrite E1, lookup_app_l in H2 by done. destruct Hb.
    apply list_elem_of_lookup_2 in H2.
    by apply (list_elem_of_fmap_2 fst) in H2.
Qed.

(** The edges after [add_node], [add_edge] and [remove_node], exactly. *)

Lemma has_edge_add_node_eq G n u v :
  has_edge (add_node G n) u v = has_edge G u v.
Proof.
  unfold add_node, has_node. case_bool_decide as Hn; [done|].
  unfold has_edge; simpl. rewrite nx_facts.neighbors_app.
  destruct (neighbors (adj G) u) eqn:E; [done|]. simpl.
  case_decide; [|done]. by rewrite bool_decide_eq_false_2 by apply not_elem_of_nil.
Qed.

Lemma has_edge_add_edge_iff G a b u v :
  has_edge (add_edge G a b) u v = true ↔
  has_edge G u v = true ∨ (u = a ∧ v = b) ∨ (u = b ∧ v = a).
Proof.
  split; [apply nx_facts.has_edge_add_edge|].
  set (G' := add_node (add_node G a) b).
  assert (a ∈ nodes G' ∧ b ∈ nodes G') as [Ha Hb].
  { subst G'. rewrite !nx_facts.elem_of_nodes_add_node. naive_solver. }
  assert (has_edge G u v = has_edge G' u v) as ->.
  { subst G'. by rewrite !has_edge_add_node_eq. }
  unfold add_edge. fold G'. unfold has_edge. simpl.
  rewrite !nx_facts.neighbors_link.
  intros [H|[[-> ->]|[-> ->]]].
  - destruct (neighbors (adj G') u) as [nbrs|]; simpl in *; [|done].
    apply bool_decide_eq_true in H. apply bool_decide_eq_true.
    repeat (case_decide || case_bool_decide);
      rewrite ?elem_of_app; naive_solver.
  - apply neighbors_is_Some in Ha as [nbrs ->]. simpl.
    apply bool_decide_eq_true.
    repeat (case_decide || case_bool_decide);
      rewrite ?elem_of_app, ?list_elem_of_singleton; naive_solver.
  - apply neighbors_is_Some in Hb as [nbrs ->]. simpl.
    apply bool_decide_eq_true.
    repeat (case_decide || case_bool_decide);
      rewrite ?elem_of_app, ?list_elem_of_singleton; naive_solver.
Qed.

Lemma has_edge_remove_node_iff G n u v :
  has_edge (remove_node G n) u v = true →
  has_edge G u v = true ∧ (n ∈ nodes G → u ≠ n ∧ v ≠ n).
Proof.
  unfold remove_node, has_node. case_bool_decide as Hn; [|done].
  unfold has_edge; simpl. rewrite nx_facts.neighbors_remove.
  case_decide; [done|]. destruct (neighbors (adj G) u); simpl; [|done].
  rewrite !bool_decide_eq_true, list_elem_of_filter. naive_solver.
Qed.

Lemma has_edge_remove_node_keep G n u v :
  has_edge G u v = true → u ≠ n → v ≠ n →
  has_edge (remove_node G n) u v = true.
Proof.
  unfold remove_node, has_node. case_bool_decide as Hn; [|done].
  unfold has_edge; simpl. rewrite nx_facts.neighbors_remove.
  intros H Hu Hv. rewrite decide_False by done.
  destruct (neighbors (adj G) u); simpl in *; [|done].
  apply bool_decide_eq_true in H. apply bool_decide_eq_true.
  by apply list_elem_of_filter.
Qed.

Lemma has_edge_remove_nodes_from_keep ns G u v :
  has_edge G u v = true → u ∉ ns → v ∉ ns →
  has_edge (remove_nodes_from G ns) u v = true.
Proof.
  unfold remove_nodes_from. revert G.
  induction ns as [|n ns IH]; intros G H Hu Hv; simpl; [done|].
  apply not_elem_of_cons in Hu as [? ?], Hv as [? ?].
  apply IH; [|done..]. by apply has_edge_remove_node_keep.
Qed.

Lemma filter_all {X} (P : X → Prop) `{!∀ x, Decision (P x)} (l : list X) :
  (∀ x, x ∈ l → P x) → filter P l = l.
Proof.
  induction l as [|x l IH]; intros Hall; [done|].
  rewrite filter_cons, decide_True by (apply Hall; by left).
  rewrite IH; [done|]. intros y Hy. apply Hall. by right.
Qed.

Lemma keys_remove l n :
  ((λ e : string * list string, (e.1, filter (λ x, x ≠ n) e.2))
     <$> filter (λ e, e.1 ≠ n) l).*1
  = filter (λ t, t ≠ n) l.*1.
Proof.
  induction l as [|[m nbrs] l IH]; [done|].
  rewrite fmap_cons, !filter_cons. simpl.
  case_decide; [|done]. rewrite !fmap_cons. simpl. by rewrite IH.
Qed.

Lemma nodes_remove_node G n :
  nodes (remove_node G n) = filter (λ t, t ≠ n) (nodes G).
Proof.
  unfold remove_node, has_node. case_bool_decide as Hn.
  - apply keys_remove.
  - symmetry. apply filter_all. by intros t Ht ->.
Qed.

Lemma nodes_remove_nodes_from ns G :
  nodes (remove_nodes_from G ns) = filter (λ t, t ∉ ns) (nodes G).
Proof.
  unfold remove_nodes_from. revert G.
  induction ns as [|n ns IH]; intros G; simpl.
  - symmetry. apply filter_all. intros t _. apply not_elem_of_nil.
  - rewrite IH, nodes_remove_node, list_filter_filter.
    apply list_filter_iff. intros t. rewrite not_elem_of_cons. tauto.
Qed.

Lemma nodes_add_node G n :
  nodes (add_node G n) = if bool_decide (n ∈ nodes G) then nodes G
                         else nodes G ++ [n].
Proof.
  unfold add_node, has_node. case_bool_decide; [done|].
  unfold nodes. simpl. by rewrite fmap_app.
Qed.

Lemma nodes_add_edge G a b :
  a ∈ nodes G → b ∈ nodes G → nodes (add_edge G a b) = nodes G.
Proof.
  intros Ha Hb. unfold add_edge. unfold nodes at 1. simpl.
  rewrite !nx_facts.nodes_link.
  fold (nodes (add_node (add_node G a) b)).
  rewrite !nodes_add_node. rewrite (bool_decide_eq_true_2 _ Ha).
  by rewrite (bool_decide_eq_true_2 _ Hb).
Qed.

Lemma simple_graph_empty : simple_graph empty.
Proof.
  split_and!; try done. apply NoDup_nil_2.
Qed.

Lemma simple_graph_add_node G n :
  simple_graph G → simple_graph (add_node G n).
Proof.
  intros (Hnd & Hsym & Hirr & Hend). split_and!.
  - rewrite nodes_add_node. case_bool_decide as Hn; [done|].
    apply NoDup_app. split_and!; [done| |apply NoDup_singleton].
    by intros t Ht ->%list_elem_of_singleton.
  - intros u v. rewrite !has_edge_add_node_eq. apply Hsym.
  - intros u. rewrite has_edge_add_node_eq. apply Hirr.
  - intros u v. rewrite has_edge_add_node_eq. intros Huv.
    apply nx_facts.elem_of_nodes_add_node. left. by eapply Hend.
Qed.

Lemma simple_graph_add_edge G a b :
  simple_graph G → a ∈ nodes G → b ∈ nodes G → a ≠ b →
  simple_graph (add_edge G a b).
Proof.
  intros (Hnd & Hsym & Hirr & Hend) Ha Hb Hab. split_and!.
  - by rewrite nodes_add_edge.
  - intros u v. rewrite !has_edge_add_edge_iff.
    intros [Huv|[[-> ->]|[-> ->]]]; [left; by apply Hsym|tauto..].
  - intros u. apply not_true_is_false. rewrite has_edge_add_edge_iff.
    intros [Huu|[[-> ->]|[-> ->]]]; [|done..].
    by rewrite Hirr in Huu.
  - intros u v. rewrite has_edge_add_edge_iff, nodes_add_edge by done.
    intros [Huv|[[-> ->]|[-> ->]]]; [by eapply Hend|done..].
Qed.

Lemma simple_graph_remove_node G n :
  simple_graph G → simple_graph (remove_node G n).
Proof.
  intros (Hnd & Hsym & Hirr & Hend).
  destruct (decide (n ∈ nodes G)) as [Hn|Hn]; cycle 1.
  { unfold remove_node, has_node.
    by rewrite bool_decide_eq_false_2 by done. }
  split_and!.
  - rewrite nodes_remove_node. by apply NoDup_filter.
  - intros u v Huv.
    apply has_edge_remove_node_iff in Huv as [Huv Hne].
    destruct (Hne Hn). by apply has_edge_remove_node_keep; [apply Hsym|..].
  - intros u. apply not_true_is_false. intros Huu.
    apply nx_facts.has_edge_remove_node in Huu. by rewrite Hirr in Huu.
  - intros u v Huv.
    apply has_edge_remove_node_iff in Huv as [Huv Hne].
    destruct (Hne Hn). apply nx_facts.elem_of_nodes_remove_node.
    split; [by eapply Hend|done].
Qed.

Lemma simple_graph_remove_nodes_from ns G :
  simple_graph G → simple_graph (remove_nodes_from G ns).
Proof.
  unfold remove_nodes_from. revert G.
  induction ns as [|n ns IH]; intros G HG; simpl; [done|].
  by apply IH, simple_graph_remove_node.
Qed.

End nx_more.

Section Coverage.

Context {Base : BaseART}.

(** Unfolding of the monad on a given state. *)
Ltac mstep :=
  repeat (progress (unfold mbind, M_bind, mret, M_ret, get, put, raise,
                      out_of_fuel, getitem, numpy, call, index_of_max
                    in *; simpl in * )).

Ltac msplit :=
  match goal with
  | |- context [match ?o with Some _ => _ | None => _ end] =>
      destruct o eqn:?
  | |- context [if ?b then _ else _] => destruct b eqn:?
  end.

Ltac minserted :=
  repeat match goal with
  | H : <[?n := _]> ?l !! ?n = Some _, H' : ?l !! ?n = Some _ |- _ =>
      rewrite list_lookup_insert_eq in H by (by eapply lookup_lt_Some);
      simplify_eq
  | H : <[?n := _]> ?l !! ?n = None, H' : ?l !! ?n = Some _ |- _ =>
      rewrite list_lookup_insert_eq in H by (by eapply lookup_lt_Some);
      simplify_eq
  end.

(** ** The cycle counter and the configuration *)

Lemma learn_all_config inputs s :
  same_config (set_cycle s (cycle s + Z.of_nat (length inputs)))
    (learn_all s inputs).
Proof.
  revert s. induction inputs as [|x inputs IH]; intros s.
  - unfold same_config. simpl. split_and!; try done. lia.
  - rewrite learn_all_cons.
    pose proof (IH (learn x s).2) as IH'.
    pose proof (learn_config x s) as Hx. rewrite learn_cycle in IH'.
    unfold same_config in *. simpl in *.
    destruct IH' as (-> & -> & -> & -> & -> & -> & -> & ->).
    destruct Hx as (-> & -> & -> & -> & -> & -> & _ & ->).
    split_and!; try done. lia.
Qed.

(** X1. Every call of [learn], whether it takes the empty-store branch,
    resonates, creates, prunes or raises, moves the cycle counter up by
    exactly one and leaves [vigilance], [alpha], [beta], [beta2], [phi],
    [tau] and [clusters] as they were; after [n] calls the counter has
    grown by [n]. *)
Theorem cycle_counts_the_calls s inputs :
  let s' := learn_all s inputs in
  cycle s' = cycle s + Z.of_nat (length inputs)
  ∧ vigilance s' = vigilance s ∧ alpha s' = alpha s ∧ beta s' = beta s
  ∧ beta2 s' = beta2 s ∧ phi s' = phi s ∧ tau s' = tau s
  ∧ clusters s' = clusters s.
Proof.
  intros s'. destruct (learn_all_config inputs s)
    as (? & ? & ? & ? & ? & ? & ? & ?). by split_and!.
Qed.

(** X2. On real scores the three loops terminate.  Every pass of a search
    ends it or marks as exhausted a score that was not negative, and every
    pass of the pruning loop deletes a prototype or moves the index
    forward.  So with the number of scores as fuel for the two searches
    and the size of the store as fuel for the pruning loop, [learn] never
    runs out: every call returns or raises.  The scores are the rationals
    of the model; a NaN among the choice scores, which is neither negative
    for the guard nor greatest for [max], is not covered. *)
Theorem learn_returns_or_raises input s :
  ∃ s', learn input s = (Ok (), s') ∨ ∃ e, learn input s = (Raise e, s').
Proof.
  pose proof (learn_returns input s) as H.
  destruct (learn input s) as [[[]|e|] s']; simpl in H; [..|done];
    exists s'; eauto.
Qed.

(** ** Pruning *)

(** X3. [__prune] never raises.  It leaves in the store exactly the
    prototypes that are not stale, in their order, removes from the graph
    the nodes of the tags of the stale ones, and touches nothing else. *)
Theorem prune_is_a_filter s :
  ∃ s', __prune s = (Ok (), s')
        ∧ prototypes s' = filter (λ p, ¬ stale s p) (prototypes s)
        ∧ network s'
          = nx.remove_nodes_from (network s)
              (tag <$> filter (stale s) (prototypes s))
        ∧ same_config s s'
        ∧ prototypes s' `sublist_of` prototypes s
        ∧ (∀ p, p ∈ prototypes s' ↔ p ∈ prototypes s ∧ ¬ stale s p).
Proof.
  exists (pruned s). rewrite __prune_eq. split_and!; try done.
  - apply sublist_filter.
  - intros p. simpl. rewrite list_elem_of_filter. tauto.
Qed.

Lemma filter_stale_kept s (ps : list prototype) :
  filter (stale s) (filter (λ p, ¬ stale s p) ps) = [].
Proof.
  induction ps as [|p ps IH]; [done|]. rewrite filter_cons.
  case_decide; [|done]. rewrite filter_cons. by rewrite decide_False.
Qed.

Lemma filter_kept_kept s (ps : list prototype) :
  filter (λ p, ¬ stale s p) (filter (λ p, ¬ stale s p) ps)
  = filter (λ p, ¬ stale s p) ps.
Proof.
  induction ps as [|p ps IH]; [done|]. rewrite filter_cons.
  case_decide; [|done]. rewrite filter_cons. rewrite decide_True by done.
  by rewrite IH.
Qed.

(** X4. Pruning twice at the same cycle is pruning once: a second
    [__prune] finds nothing to delete and leaves the object as it is. *)
Theorem prune_twice s :
  ∃ s', __prune s = (Ok (), s') ∧ __prune s' = (Ok (), s').
Proof.
  exists (pruned s). rewrite !__prune_eq. split; [done|]. f_equal.
  unfold pruned at 1. simpl.
  transitivity
    (set_network
       (set_prototypes (pruned s)
          (filter (λ p, ¬ stale s p) (prototypes s)))
       (nx.remove_nodes_from (network (pruned s)) (tag <$> []))).
  - f_equal; [f_equal; exact (filter_kept_kept s _)|].
    f_equal. f_equal. exact (filter_stale_kept s _).
  - by destruct s.
Qed.

(** ** The store grows by one prototype at most *)

Lemma learn_length input s :
  (length (prototypes (learn input s).2) <= S (length (prototypes s)))%nat.
Proof.
  destruct (learn input s) as [r s'] eqn:Hl.
  apply learn_spec in Hl as (s2 & Hres & Hcase). simpl.
  assert (length (prototypes s2) <= S (length (prototypes s)))%nat as H2.
  { destruct Hres as (_ & ps & new & G & -> & Hmeta & Hnew & _).
    rewrite length_app, <- (Forall2_length _ _ _ Hmeta). simpl.
    destruct Hnew as [-> | ->]; simpl; lia. }
  destruct Hcase as [(_ & _ & ->)|[-> _]]; [|done].
  simpl. etrans; [apply length_filter|done].
Qed.

(** X5. A call appends one prototype at most, so a store never holds more
    prototypes than [learn] was called: after [n] calls on a new object
    there are at most [n] prototypes. *)
Theorem store_bounded_by_calls v a b b2 ph ta inputs input :
  let s := learn_all (blank v a b b2 ph ta) inputs in
  (length (prototypes s) <= length inputs)%nat
  ∧ (length (prototypes (learn input s).2) <= S (length (prototypes s)))%nat.
Proof.
  intros s. split; [|apply learn_length]. subst s.
  assert (∀ s0, length (prototypes (learn_all s0 inputs))
                <= length (prototypes s0) + length inputs)%nat as H.
  { induction inputs as [|x inputs IH]; intros s0; simpl; [lia|].
    fold (learn_all (learn x s0).2 inputs).
    pose proof (IH (learn x s0).2). pose proof (learn_length x s0). lia. }
  apply (H (blank v a b b2 ph ta)).
Qed.

(** ** What a search does to the store and the graph *)

Lemma untouched_refl s : untouched s s.
Proof. by split_and!. Qed.

Lemma guard_false G a b :
  negb (bool_decide ((a, b) ∈ nx.edges G))
  || negb (bool_decide ((b, a) ∈ nx.edges G)) = false →
  a = b.
Proof.
  intros [Hab Hba]%orb_false_iff.
  apply negb_false_iff, bool_decide_eq_true in Hab, Hba.
  by eapply nx_more.edges_one_direction.
Qed.

Lemma second_winner_loop_exact fuel x Mv i tg T s r s' y :
  T !! i = Some y → Qltb y 0 = true →
  second_winner_loop fuel x Mv i tg T s = (r, s') →
  second_search_effect x Mv i tg s r s'.
Proof.
  revert T s. induction fuel as [|fuel IH]; intros T s Hy Hy0; simpl;
    destruct (all_negative T) eqn:Hall; mstep.
  1-3: intros [= <- <-]; left; split; [apply untouched_refl|];
    by intros l [= <-].
  destruct (index_of_max_live T s Hall) as (k & z & Hk & Hz & Hz0).
  assert (k ≠ i) as Hki by (intros ->; congruence).
  revert Hk. mstep. intros Hk.
  destruct (py_max T) as [q|]; [|done].
  destruct (py_index q T) as [k'|]; [|done]. injection Hk as ->.
  repeat (msplit; mstep).
  all: try (apply IH; [by rewrite list_lookup_insert_ne|done]).
  all: try (intros [= <- <-]; left;
            split; [apply untouched_refl|]; by intros l0 [=]).
  all: minserted; intros [= <- <-]; right.
  - exists k, p, p0, q0, l. eexists _, z. simpl. split_and!; try done.
    by left.
  - exists k, p, p0, q0, l. eexists _, z. simpl. split_and!; try done.
    right. split; [done|]. by eapply guard_false.
Qed.

Lemma first_winner_loop_exact fuel x Mv T s r s' :
  first_winner_loop fuel x Mv T s = (r, s') →
  search_effect x Mv s r s'.
Proof.
  revert T s. induction fuel as [|fuel IH]; intros T s; simpl;
    destruct (all_negative T) eqn:Hall; mstep.
  1-3: intros [= <- <-]; apply search_none; [apply untouched_refl|];
    by intros l [= <-].
  destruct (index_of_max_live T s Hall) as (k & z & Hk & Hz & Hz0).
  revert Hk. mstep. intros Hk.
  destruct (py_max T) as [q|]; [|done].
  destruct (py_index q T) as [k'|]; [|done]. injection Hk as ->.
  repeat (msplit; mstep); try apply IH.
  all: try (intros [= <- <-]; apply search_none; [apply untouched_refl|];
            by intros l0 [=]).
  all: minserted.
  all: assert (<[k:=set_counter (set_weights p l)
                     (counter (set_weights p l) + 1)]>
                 (<[k:=set_weights p l]> (prototypes s))
               = <[k:=won p l]> (prototypes s)) as Hwon
    by apply list_insert_insert_eq.
  - intros Hrun.
    eapply (second_winner_loop_exact _ _ _ _ _ _ _ _ _ (-1)%Q) in Hrun;
      [|apply list_lookup_insert_eq; by eapply lookup_lt_Some|done].
    destruct Hrun as [[(Hp & Hn & Hc) Hl]
                     |(j & pi & pj & mj & w2 & l0 & t & -> & Hj & Hpi & Hpj
                       & Hmj & Hvj & Hw2 & Hp & Hn & Hc & Hi' & Hj' & Ht
                       & Ht0)].
    + eapply search_one; try done. simpl in Hp. by rewrite Hp.
    + simpl in *. rewrite Hwon in Hpi, Hpj, Hp.
      rewrite list_lookup_insert_eq in Hpi by (by eapply lookup_lt_Some).
      injection Hpi as <-.
      rewrite list_lookup_insert_ne in Hpj by done.
      eapply (search_two _ _ _ k j p pj q0 mj l w2); try done.
  - intros [= <- <-]. by eapply search_one.
Qed.

(** ** [learn] on a given run of the search *)

Lemma resonate_empty input s :
  prototypes s = [] → resonate input s = (Ok (), created input s).
Proof.
  intros Hs. unfold resonate. mstep. rewrite Hs. simpl.
  rewrite __add_prototype_eq. unfold created. by rewrite Hs.
Qed.

Lemma resonate_run input s T Mv r1 s1 :
  prototypes s ≠ [] →
  choice s input = inr T → match_ s input = inr Mv →
  first_winner_loop (length T) input Mv T s = (r1, s1) →
  resonate input s
  = match r1 with
    | Ok l => (Ok (), if any_positive (T_of l) then s1
                      else created input s1)
    | Raise e => (Raise e, s1)
    | OutOfFuel => (OutOfFuel, s1)
    end.
Proof.
  intros Hs HT HM Hrun. unfold resonate. mstep.
  rewrite bool_decide_eq_false_2 by (by destruct (prototypes s)).
  rewrite HT, HM, Hrun. destruct r1 as [l| |]; try done.
  destruct (any_positive (T_of l)); simpl; [done|].
  by rewrite __add_prototype_eq.
Qed.

Lemma learn_after input s s2 :
  resonate input (set_cycle s (cycle s + 1)) = (Ok (), s2) →
  learn input s = (Ok (), after_pruning s2).
Proof.
  intros Hres. rewrite learn_eq, Hres. unfold after_pruning.
  case_bool_decide; [by rewrite __prune_eq|done].
Qed.

Lemma learn_raise input s e s2 :
  resonate input (set_cycle s (cycle s + 1)) = (Raise e, s2) →
  learn input s = (Raise e, s2).
Proof. intros Hres. by rewrite learn_eq, Hres. Qed.

Lemma resonate_ok_inv input s s2 :
  prototypes s ≠ [] →
  resonate input s = (Ok (), s2) →
  ∃ T Mv l s1,
    choice s input = inr T ∧ match_ s input = inr Mv
    ∧ first_winner_loop (length T) input Mv T s = (Ok l, s1)
    ∧ s2 = if any_positive (T_of l) then s1 else created input s1.
Proof.
  intros Hs. destruct (choice s input) as [e|T] eqn:HT.
  { unfold resonate. mstep.
    rewrite bool_decide_eq_false_2 by (by destruct (prototypes s)).
    by rewrite HT. }
  destruct (match_ s input) as [e|Mv] eqn:HM.
  { unfold resonate. mstep.
    rewrite bool_decide_eq_false_2 by (by destruct (prototypes s)).
    by rewrite HT, HM. }
  destruct (first_winner_loop (length T) input Mv T s) as [r1 s1] eqn:Hrun.
  rewrite (resonate_run _ _ _ _ _ _ Hs HT HM Hrun).
  destruct r1 as [l| |]; [|done..]. intros [= <-].
  by exists T, Mv, l, s1.
Qed.

Lemma learn_ok_inv input s s' :
  learn input s = (Ok (), s') →
  ∃ s2, resonate input (set_cycle s (cycle s + 1)) = (Ok (), s2)
        ∧ s' = after_pruning s2.
Proof.
  rewrite learn_eq.
  destruct (resonate input _) as [[[]| |] s2] eqn:Hres; [|done..].
  intros Hl. exists s2. split; [done|]. unfold after_pruning.
  case_bool_decide; [rewrite __prune_eq in Hl|]; by injection Hl.
Qed.

Lemma all_negative_not_positive T :
  all_negative T = true → any_positive T = false.
Proof.
  unfold all_negative, any_positive.
  induction T as [|t T IH]; simpl; [done|].
  intros [Ht HT]%andb_true_iff. rewrite (IH HT), orb_false_r.
  apply Qltb_lt in Ht. apply Qltb_ge. by apply Qlt_le_weak.
Qed.

(** ** The first input *)

(** X6. On an empty store [learn] does not call the scoring methods and
    does not raise.  It creates the prototype [p<c>] of the new cycle [c]
    with the input as weights and adds its node to the graph; if the
    warm-up is over and the new prototype is already stale, it is pruned
    in the same call and the store is empty again. *)
Theorem first_input input s :
  prototypes s = [] →
  let c := cycle s + 1 in
  ∃ s', learn input s = (Ok (), s') ∧ cycle s' = c
    ∧ ((¬ (c > tau s ∧ c - lastactive0 c > phi s)
        ∧ prototypes s' = [new_prototype input (fresh_tag c) c]
        ∧ network s' = nx.add_node (network s) (fresh_tag c))
       ∨ (c > tau s ∧ c - lastactive0 c > phi s
          ∧ prototypes s' = []
          ∧ fresh_tag c ∉ nx.nodes (network s'))).
Proof.
  intros Hs c. eexists. split.
  { apply learn_after, resonate_empty. done. }
  unfold after_pruning, created. simpl. rewrite Hs. simpl. fold c.
  case_bool_decide as Hwarm; simpl.
  - unfold pruned, stale. simpl. rewrite !filter_cons, !filter_nil. simpl.
    split; [done|]. destruct (decide (c - lastactive0 c > phi s)) as [Hst|Hst].
    + right. case_decide; [tauto|]. split_and!; try done. simpl.
      rewrite nx_facts.elem_of_nodes_remove_node. tauto.
    + left. case_decide; [|tauto]. split_and!; try done. tauto.
  - split; [done|]. left. split_and!; try done. tauto.
Qed.

(** ** Creation *)

(** X7. The store grows whenever the search ends without a second winner.
    When [learn] returns on a non empty store and the search has found no
    pair of winners, a prototype with the input as weights is created, also
    when a first winner has resonated and learnt the input: the score of
    the first winner is exhausted like those of the rejected candidates, so
    the test of line 151 finds no positive score. *)
Theorem creation_without_second_winner input s s' :
  prototypes s ≠ [] →
  learn input s = (Ok (), s') →
  (∀ i j, ¬ winners (set_cycle s (cycle s + 1)) input i j) →
  cycle s + 1 <= tau s →
  tags s' = tags s ++ [fresh_tag (cycle s + 1)]
  ∧ last (prototypes s')
    = Some (new_prototype input (fresh_tag (cycle s + 1)) (cycle s + 1)).
Proof.
  intros Hs Hl Hnone Hwarm.
  apply learn_ok_inv in Hl as (s2 & Hres & ->).
  apply resonate_ok_inv in Hres as (T & Mv & l & s1 & HT & HM & Hrun & ->);
    [|done].
  pose proof (first_winner_loop_spec _ _ _ _ _ _ _ Hrun) as [[Hc Hmeta] _].
  pose proof (first_winner_loop_exact _ _ _ _ _ _ _ Hrun) as Heff.
  assert (any_positive (T_of l) = false) as ->.
  { apply all_negative_not_positive.
    inversion Heff as [? ? ? Hnot|? ? ? ? ? ? ? ? ? ? ? ? ? Hnot|]; subst.
    - by apply (Hnot l).
    - by apply (Hnot l).
    - destruct (Hnone i j). by exists T, Mv, l, s1. }
  assert (cycle s1 = cycle s + 1) as Hcy by apply Hc.
  assert (tau s1 = tau s) as Hta by apply Hc.
  unfold after_pruning. rewrite bool_decide_eq_false_2 by (simpl; lia).
  unfold tags, created. simpl. rewrite Hcy, fmap_app, last_snoc.
  split; [|done]. by rewrite (same_meta_tags _ _ Hmeta).
Qed.

Lemma first_winner_loop_none fuel x Mv T s :
  (∀ k t, T !! k = Some t → Qltb t 0 = false →
          ∃ m, Mv !! k = Some m ∧ Qle_bool (vigilance s) m = false) →
  (live T <= fuel)%nat →
  ∃ T', first_winner_loop fuel x Mv T s
        = (Ok (Locals T' None None), s)
        ∧ all_negative T' = true.
Proof.
  revert T. induction fuel as [|fuel IH]; intros T Hfail Hf;
    simpl; destruct (all_negative T) eqn:Hall; try by eexists.
  - apply all_negative_live in Hall. lia.
  - destruct (index_of_max_live T s Hall) as (k & z & Hk & Hz & Hz0).
    unfold mbind at 1, M_bind at 1. rewrite Hk. clear Hk.
    destruct (Hfail k z Hz Hz0) as (m & Hm & Hv).
    mstep. rewrite Hm. simpl. rewrite Hv.
    apply IH.
    + intros k' t Hk' Ht.
      destruct (decide (k = k')) as [<-|Hne].
      * rewrite list_lookup_insert_eq in Hk'
          by (by eapply lookup_lt_Some).
        by injection Hk' as <-.
      * rewrite list_lookup_insert_ne in Hk' by done. by eapply Hfail.
    + pose proof (live_exhaust T k z Hz Hz0). lia.
Qed.

(** X8. When the scoring methods return on a non empty store and no
    candidate of the search passes the vigilance test, that is, every
    prototype whose choice score is not negative has a match score below
    the vigilance, the search changes nothing and [learn] returns after
    creating the prototype of the new cycle with the input as weights and
    its node.  Before the end of the warm-up that is all the call does;
    after it the stale prototypes are pruned from the object so
    obtained. *)
Theorem creation_when_none_resonates input s T Mv :
  prototypes s ≠ [] →
  choice (set_cycle s (cycle s + 1)) input = inr T →
  match_ (set_cycle s (cycle s + 1)) input = inr Mv →
  (∀ k t, T !! k = Some t → (0 <= t)%Q →
          ∃ m, Mv !! k = Some m ∧ (m < vigilance s)%Q) →
  learn input s
  = (Ok (), after_pruning (created input (set_cycle s (cycle s + 1))))
  ∧ (cycle s + 1 <= tau s →
     learn input s = (Ok (), created input (set_cycle s (cycle s + 1))))
  ∧ (cycle s + 1 > tau s →
     learn input s
     = (Ok (), pruned (created input (set_cycle s (cycle s + 1))))).
Proof.
  intros Hs HT HM Hfail.
  destruct (first_winner_loop_none (length T) input Mv T
              (set_cycle s (cycle s + 1))) as (T' & Hrun & Hall);
    [|apply live_le_length|].
  { intros k t Hk Ht. apply Qltb_ge in Ht.
    destruct (Hfail k t Hk Ht) as (m & Hm & Hv). exists m.
    split; [done|]. simpl.
    apply not_true_iff_false. rewrite Qle_bool_iff.
    by apply Qlt_not_le. }
  assert (learn input s
          = (Ok (),
             after_pruning (created input (set_cycle s (cycle s + 1)))))
    as Hl.
  { apply learn_after. erewrite resonate_run; [|done..]. simpl.
    by rewrite (all_negative_not_positive _ Hall). }
  split_and!; [done|..]; intros Hwarm; rewrite Hl; unfold after_pruning.
  - by rewrite bool_decide_eq_false_2 by (simpl; lia).
  - by rewrite bool_decide_eq_true_2 by (simpl; lia).
Qed.

(** ** A call that raises *)

Lemma resonate_raise_inv input s e s' :
  resonate input s = (Raise e, s') →
  prototypes s ≠ []
  ∧ (untouched s s'
     ∨ ∃ T Mv, choice s input = inr T ∧ match_ s input = inr Mv
               ∧ first_winner_loop (length T) input Mv T s = (Raise e, s')).
Proof.
  intros Hres. destruct (prototypes s) as [|p ps] eqn:Hs.
  { by rewrite resonate_empty in Hres. }
  split; [done|]. revert Hres. unfold resonate. mstep. rewrite Hs. simpl.
  destruct (choice s input) as [e0|T] eqn:HT.
  { intros [= <- <-]. left. apply untouched_refl. }
  destruct (match_ s input) as [e0|Mv] eqn:HM.
  { intros [= <- <-]. left. apply untouched_refl. }
  destruct (first_winner_loop (length T) input Mv T s)
    as [[l| |] s1] eqn:Hrun; simpl.
  - by destruct (any_positive (T_of l)).
  - intros [= <- <-]. right. by exists T, Mv.
  - done.
Qed.

(** X9. A call that raises has pruned nothing and created nothing, and has
    left the graph as it was.  The store is as before, except that the
    first winner has learnt the input when the exception came during the
    search for a second winner; only the cycle counter has moved. *)
Theorem raising_call_keeps_the_structure input s e s' :
  learn input s = (Raise e, s') →
  cycle s' = cycle s + 1
  ∧ network s' = network s
  ∧ (prototypes s' = prototypes s
     ∨ ∃ i p w, prototypes s !! i = Some p
                ∧ fuzzy_min_update (beta s) input (weights p) = Some w
                ∧ prototypes s' = <[i := won p w]> (prototypes s)).
Proof.
  rewrite learn_eq.
  destruct (resonate input _) as [[[]|e0|] s2] eqn:Hres.
  - case_bool_decide; [by rewrite __prune_eq|done].
  - intros [= <- <-].
    apply resonate_raise_inv in Hres
      as [_ [(Hp & Hn & Hc)|(T & Mv & _ & _ & Hrun)]].
    { split_and!; [apply Hc|done|by left]. }
    pose proof (first_winner_loop_exact _ _ _ _ _ _ _ Hrun) as Heff.
    inversion Heff as [? ? (Hp & Hn & Hc)|i p mi w ? ? Hi _ _ Hw Hp Hn Hc|];
      subst.
    + split_and!; [apply Hc|done|by left].
    + split_and!; [apply Hc|done|]. right. by exists i, p, w.
  - done.
Qed.

(** ** The order of the search *)

Lemma py_index_first v l i k y :
  py_index v l = Some i → (k < i)%nat → l !! k = Some y → ¬ (y == v)%Q.
Proof.
  revert i k. induction l as [|x l IH]; intros i k; simpl; [done|].
  destruct (Qeq_bool x v) eqn:E.
  - intros [= <-]. lia.
  - destruct (py_index v l) as [i'|]; simpl; [|done]. intros [= <-] Hk.
    destruct k as [|k]; simpl.
    + intros [= ->]. intros Hy. apply Qeq_bool_iff in Hy. congruence.
    + apply (IH i' k); [done|lia].
Qed.

(** [T.index(max(T))] points to a greatest score, the first of them. *)
Lemma index_of_max_first T q i :
  py_max T = Some q → py_index q T = Some i →
  ∃ x, T !! i = Some x
       ∧ ∀ k y, T !! k = Some y →
                (y <= x)%Q ∧ ((k < i)%nat → (y < x)%Q).
Proof.
  intros Hq Hi. destruct (py_index_lookup _ _ _ Hi) as (x & Hx & Hxq).
  exists x. split; [done|]. intros k y Hy.
  assert (y <= q)%Q as Hle.
  { eapply py_max_ge; [done|]. by eapply list_elem_of_lookup_2. }
  split; [by rewrite Hxq|]. intros Hk. rewrite Hxq.
  apply Qle_lteq in Hle as [Hlt|Heq]; [done|].
  by destruct (py_index_first _ _ _ _ _ Hi Hk Hy).
Qed.

Lemma exhausts_insert vig T0 Mv out T k :
  exhausts vig T0 Mv out T →
  (k ∈ out ∨ ∃ m, Mv !! k = Some m ∧ Qle_bool vig m = false) →
  (k < length T)%nat →
  exhausts vig T0 Mv out (<[k := (-1)%Q]> T).
Proof.
  intros HT Hk Hlen k'. destruct (decide (k = k')) as [<-|Hne].
  - right. by rewrite list_lookup_insert_eq.
  - rewrite list_lookup_insert_ne by done. apply HT.
Qed.

Lemma exhausts_best vig T0 Mv out T i x m :
  exhausts vig T0 Mv out T →
  T !! i = Some x → Qltb x 0 = false →
  Mv !! i = Some m → Qle_bool vig m = true →
  (∀ k y, T !! k = Some y → (y <= x)%Q ∧ ((k < i)%nat → (y < x)%Q)) →
  T0 !! i = Some x
  ∧ ∀ k tk mk,
      T0 !! k = Some tk → Mv !! k = Some mk →
      Qle_bool vig mk = true → k ∉ out →
      (tk <= x)%Q ∧ ((k < i)%nat → (tk < x)%Q).
Proof.
  intros HT Hx Hx0 Hm Hv Hmax. split.
  - destruct (HT i) as [<-|[Hi _]]; [done|].
    rewrite Hx in Hi. by injection Hi as ->.
  - intros k tk mk Htk Hmk Hvk Hout. apply Hmax.
    destruct (HT k) as [->|[_ [?|(m' & Hm' & Hv')]]]; [done..|].
    congruence.
Qed.

Lemma second_winner_loop_best T0 fuel x Mv i tg T s l s' j y :
  exhausts (vigilance s) T0 Mv [i] T →
  T !! i = Some y → Qltb y 0 = true →
  second_winner_loop fuel x Mv i tg T s = (Ok l, s') →
  ISW_of l = Some j →
  best_resonating s T0 Mv [i] j.
Proof.
  revert T. induction fuel as [|fuel IH]; intros T HT Hy Hy0; simpl;
    destruct (all_negative T) eqn:Hall; mstep; try by intros [= <- <-].
  destruct (index_of_max_live T s Hall) as (k & z & Hk & Hz & Hz0).
  assert (k ≠ i) as Hki by (intros ->; congruence).
  revert Hk. mstep. intros Hk.
  destruct (py_max T) as [q|] eqn:Hq; [|done].
  destruct (py_index q T) as [k'|] eqn:Hq'; [|done]. injection Hk as ->.
  destruct (index_of_max_first _ _ _ Hq Hq') as (z' & Hz' & Hmax).
  rewrite Hz in Hz'. injection Hz' as <-.
  destruct (Mv !! k) as [m|] eqn:Hm; mstep; [|done].
  destruct (Qle_bool (vigilance s) m) eqn:Hv.
  - repeat (msplit; mstep); try done.
    all: intros [= <- <-]; simpl; intros [= <-].
    all: destruct (exhausts_best _ _ _ _ _ _ _ _ HT Hz Hz0 Hm Hv Hmax)
      as [Hk0 Hbest].
    all: exists z, m; split_and!; try done.
    all: by intros ->%list_elem_of_singleton.
  - apply IH; [|by rewrite list_lookup_insert_ne|done].
    apply exhausts_insert; [done| |by eapply lookup_lt_Some].
    right. by exists m.
Qed.

Lemma first_winner_loop_best T0 fuel x Mv T s l s' i :
  exhausts (vigilance s) T0 Mv [] T →
  first_winner_loop fuel x Mv T s = (Ok l, s') →
  IFW_of l = Some i →
  best_resonating s T0 Mv [] i
  ∧ ∀ j, ISW_of l = Some j → best_resonating s T0 Mv [i] j.
Proof.
  revert T. induction fuel as [|fuel IH]; intros T HT; simpl;
    destruct (all_negative T) eqn:Hall; mstep; try by intros [= <- <-].
  destruct (index_of_max_live T s Hall) as (k & z & Hk & Hz & Hz0).
  revert Hk. mstep. intros Hk.
  destruct (py_max T) as [q|] eqn:Hq; [|done].
  destruct (py_index q T) as [k'|] eqn:Hq'; [|done]. injection Hk as ->.
  destruct (index_of_max_first _ _ _ Hq Hq') as (z' & Hz' & Hmax).
  rewrite Hz in Hz'. injection Hz' as <-.
  destruct (Mv !! k) as [m|] eqn:Hm; mstep; [|done].
  destruct (Qle_bool (vigilance s) m) eqn:Hv.
  - repeat (msplit; mstep); try done.
    intros Hrun Hi.
    pose proof (second_winner_loop_spec _ _ _ _ _ _ _ _ _ Hrun)
      as (_ & Hi' & _).
    rewrite Hi in Hi'. injection Hi' as ->.
    destruct (exhausts_best _ _ _ _ _ _ _ _ HT Hz Hz0 Hm Hv Hmax)
      as [Hk0 Hbest].
    split.
    + exists z, m. split_and!; try done. apply not_elem_of_nil.
    + intros j Hj.
      assert (exhausts (vigilance s) T0 Mv [k] (<[k:=(-1)%Q]> T)) as HT2.
      { intros k'. destruct (decide (k = k')) as [<-|Hne].
        - right. rewrite list_lookup_insert_eq
            by (by eapply lookup_lt_Some).
          split; [done|]. left. by left.
        - rewrite list_lookup_insert_ne by done.
          destruct (HT k') as [?|[? [?%elem_of_nil|?]]]; [by left|done|].
          right. split; [done|]. by right. }
      assert (<[k:=(-1)%Q]> T !! k = Some (-1)%Q) as Hk2.
      { apply list_lookup_insert_eq. by eapply lookup_lt_Some. }
      match type of Hrun with
      | second_winner_loop _ _ _ _ _ _ ?s1 = _ =>
          exact (second_winner_loop_best T0 _ _ _ _ _ _ s1 _ _ _ _
                   HT2 Hk2 eq_refl Hrun Hj)
      end.
  - apply IH. apply exhausts_insert; [done| |by eapply lookup_lt_Some].
    right. by exists m.
Qed.

Lemma exhausts_missed vig T0 Mv out T k tk mk :
  exhausts vig T0 Mv out T → all_negative T = true →
  T0 !! k = Some tk → Mv !! k = Some mk → Qle_bool vig mk = true →
  k ∉ out → (tk < 0)%Q.
Proof.
  intros HT Hall Htk Hmk Hv Hout.
  destruct (HT k) as [Hk|[_ [?|(m & Hm & Hv')]]]; [|done|congruence].
  rewrite Htk in Hk. unfold all_negative in Hall.
  rewrite forallb_forall in Hall. apply Qltb_lt, Hall.
  apply list_elem_of_In. by eapply list_elem_of_lookup_2.
Qed.

Lemma second_winner_loop_exhausts T0 fuel x Mv i tg T s l s' y :
  exhausts (vigilance s) T0 Mv [i] T →
  T !! i = Some y → Qltb y 0 = true →
  second_winner_loop fuel x Mv i tg T s = (Ok l, s') →
  ISW_of l = None →
  exhausts (vigilance s) T0 Mv [i] (T_of l)
  ∧ all_negative (T_of l) = true.
Proof.
  revert T. induction fuel as [|fuel IH]; intros T HT Hy Hy0; simpl;
    destruct (all_negative T) eqn:Hall; mstep; try by intros [= <- <-].
  destruct (index_of_max_live T s Hall) as (k & z & Hk & Hz & Hz0).
  assert (k ≠ i) as Hki by (intros ->; congruence).
  revert Hk. mstep. intros Hk.
  destruct (py_max T) as [q|] eqn:Hq; [|done].
  destruct (py_index q T) as [k'|] eqn:Hq'; [|done]. injection Hk as ->.
  destruct (Mv !! k) as [m|] eqn:Hm; mstep; [|done].
  destruct (Qle_bool (vigilance s) m) eqn:Hv.
  - repeat (msplit; mstep); try done.
    all: by intros [= <- <-].
  - apply IH; [|by rewrite list_lookup_insert_ne|done].
    apply exhausts_insert; [done| |by eapply lookup_lt_Some].
    right. by exists m.
Qed.

Lemma first_winner_loop_exhausts T0 fuel x Mv T s l s' :
  exhausts (vigilance s) T0 Mv [] T →
  first_winner_loop fuel x Mv T s = (Ok l, s') →
  (IFW_of l = None →
   exhausts (vigilance s) T0 Mv [] (T_of l)
   ∧ all_negative (T_of l) = true)
  ∧ (∀ i, IFW_of l = Some i → ISW_of l = None →
          exhausts (vigilance s) T0 Mv [i] (T_of l)
          ∧ all_negative (T_of l) = true).
Proof.
  revert T. induction fuel as [|fuel IH]; intros T HT; simpl;
    destruct (all_negative T) eqn:Hall; mstep; try done;
    try by (intros [= <- <-]; split; [|intros i [=]]).
  destruct (index_of_max_live T s Hall) as (k & z & Hk & Hz & Hz0).
  revert Hk. mstep. intros Hk.
  destruct (py_max T) as [q|] eqn:Hq; [|done].
  destruct (py_index q T) as [k'|] eqn:Hq'; [|done]. injection Hk as ->.
  destruct (Mv !! k) as [m|] eqn:Hm; mstep; [|done].
  destruct (Qle_bool (vigilance s) m) eqn:Hv.
  - repeat (msplit; mstep); try done.
    intros Hrun.
    pose proof (second_winner_loop_spec _ _ _ _ _ _ _ _ _ Hrun)
      as (_ & Hi' & _).
    split; [intros Hi; congruence|]. intros i Hi Hj.
    rewrite Hi in Hi'. injection Hi' as ->.
    assert (exhausts (vigilance s) T0 Mv [k] (<[k:=(-1)%Q]> T)) as HT2.
    { intros k'. destruct (decide (k = k')) as [<-|Hne].
      - right. rewrite list_lookup_insert_eq
          by (by eapply lookup_lt_Some).
        split; [done|]. left. by left.
      - rewrite list_lookup_insert_ne by done.
        destruct (HT k') as [?|[? [?%elem_of_nil|?]]]; [by left|done|].
        right. split; [done|]. by right. }
    assert (<[k:=(-1)%Q]> T !! k = Some (-1)%Q) as Hk2.
    { apply list_lookup_insert_eq. by eapply lookup_lt_Some. }
    match type of Hrun with
    | second_winner_loop _ _ _ _ _ _ ?s1 = _ =>
        exact (second_winner_loop_exhausts T0 _ _ _ _ _ _ s1 _ _ _
                 HT2 Hk2 eq_refl Hrun Hj)
    end.
  - apply IH. apply exhausts_insert; [done| |by eapply lookup_lt_Some].
    right. by exists m.
Qed.

(** X10. The search is committed to the order of the choice scores.  The
    first winner is the resonating prototype with the greatest choice
    score, the earliest in the store among equals, and the second winner
    is the same among the others.  No resonating prototype with a score
    that is not negative is missed: when the search ends without a first
    (or second) winner, every resonating prototype (other than the first
    winner) had a negative choice score. *)
Theorem search_follows_the_scores input s T Mv l s1 :
  choice s input = inr T → match_ s input = inr Mv →
  first_winner_loop (length T) input Mv T s = (Ok l, s1) →
  (∀ i, IFW_of l = Some i → best_resonating s T Mv [] i)
  ∧ (∀ i j, IFW_of l = Some i → ISW_of l = Some j →
            best_resonating s T Mv [i] j)
  ∧ (∀ k tk mk,
       T !! k = Some tk → Mv !! k = Some mk →
       Qle_bool (vigilance s) mk = true →
       (IFW_of l = None → (tk < 0)%Q)
       ∧ (∀ i, IFW_of l = Some i → ISW_of l = None → k ≠ i →
               (tk < 0)%Q)).
Proof.
  intros _ _ Hrun.
  assert (exhausts (vigilance s) T Mv [] T) as HT by (intros k; by left).
  split_and!.
  - intros i Hi.
    by destruct (first_winner_loop_best _ _ _ _ _ _ _ _ _ HT Hrun Hi).
  - intros i j Hi Hj.
    destruct (first_winner_loop_best _ _ _ _ _ _ _ _ _ HT Hrun Hi)
      as [_ Hbest]. by apply Hbest.
  - intros k tk mk Htk Hmk Hv.
    destruct (first_winner_loop_exhausts _ _ _ _ _ _ _ _ HT Hrun)
      as [Hnone Hone].
    split.
    + intros Hi. destruct (Hnone Hi) as [HT' Hall].
      eapply exhausts_missed; [exact HT'|done..|apply not_elem_of_nil].
    + intros i Hi Hj Hki. destruct (Hone i Hi Hj) as [HT' Hall].
      eapply exhausts_missed; [exact HT'|done..|].
      by intros ->%list_elem_of_singleton.
Qed.

(** ** The graph and the order of the store *)

Lemma filter_not_elem_of_cons (a : string) (k l : list string) :
  a ∉ l → filter (λ t, t ∉ a :: k) l = filter (λ t, t ∉ k) l.
Proof.
  induction l as [|y l IH]; [done|].
  intros [Hay Ha]%not_elem_of_cons. rewrite !(filter_cons _ y), (IH Ha).
  destruct (decide (y ∉ k)) as [Hy|Hy].
  - rewrite decide_True; [done|].
    apply not_elem_of_cons. split; [congruence|done].
  - rewrite decide_False; [done|].
    by intros [_ ?]%not_elem_of_cons.
Qed.

Lemma filter_fmap_complement {X} (f : X → string) (P : X → Prop)
    `{!∀ x, Decision (P x)} (l : list X) :
  NoDup (f <$> l) →
  filter (λ t, t ∉ f <$> filter P l) (f <$> l)
  = f <$> filter (λ x, ¬ P x) l.
Proof.
  induction l as [|x l IH]; [done|]. rewrite fmap_cons.
  intros [Hx Hnd]%NoDup_cons. rewrite !(filter_cons _ x).
  destruct (decide (P x)) as [HP|HP].
  - rewrite decide_False by tauto. rewrite fmap_cons.
    rewrite (filter_cons _ (f x)), decide_False
      by (intros Hnot; apply Hnot; left).
    rewrite filter_not_elem_of_cons by done. by apply IH.
  - rewrite decide_True by done. rewrite fmap_cons.
    rewrite (filter_cons _ (f x)), decide_True; [by rewrite IH|].
    intros (y & Hy & [_ Hin]%list_elem_of_filter)%list_elem_of_fmap.
    apply Hx. rewrite Hy. by apply list_elem_of_fmap_2.
Qed.

Lemma pruned_graph s :
  NoDup (tags s) → graph_mirrors_store s → graph_mirrors_store (pruned s).
Proof.
  intros Hnd [Hsimple Hnodes]. split; simpl.
  - by apply nx_more.simple_graph_remove_nodes_from.
  - rewrite nx_more.nodes_remove_nodes_from, Hnodes. unfold tags. simpl.
    exact (filter_fmap_complement tag (stale s) (prototypes s) Hnd).
Qed.

Lemma resonated_graph input s s' :
  NoDup (tags s) → NoDup (tags s') → graph_mirrors_store s →
  resonated input s s' → graph_mirrors_store s'.
Proof.
  intros Hnd Hnd' [Hsimple Hnodes]
    (_ & ps & new & G & Hps & Hmeta & Hnew & Hnet & HG).
  assert (simple_graph G ∧ nx.nodes G = tags s) as [HG1 HG2].
  { destruct HG as [->|(i & j & pi & pj & Hw & Hi & Hj & ->)]; [done|].
    apply winners_resonate in Hw as [Hij _].
    assert (tag pi ∈ nx.nodes (network s)) as Hti.
    { rewrite Hnodes. apply list_elem_of_fmap_2.
      by eapply list_elem_of_lookup_2. }
    assert (tag pj ∈ nx.nodes (network s)) as Htj.
    { rewrite Hnodes. apply list_elem_of_fmap_2.
      by eapply list_elem_of_lookup_2. }
    split; [|by rewrite nx_more.nodes_add_edge].
    apply nx_more.simple_graph_add_edge; try done.
    intros Heq. apply Hij.
    eapply (NoDup_lookup (tags s)); [done|..].
    - unfold tags. rewrite list_lookup_fmap, Hi. done.
    - unfold tags. rewrite list_lookup_fmap, Hj. simpl. by rewrite Heq. }
  assert (tags s' = tags s ++ (tag <$> new)) as Htags.
  { unfold tags. by rewrite Hps, fmap_app, (same_meta_tags _ _ Hmeta). }
  unfold graph_mirrors_store. rewrite Htags in *. rewrite Hnet.
  destruct Hnew as [->| ->]; simpl.
  - by rewrite app_nil_r.
  - split; [by apply nx_more.simple_graph_add_node|].
    rewrite nx_more.nodes_add_node, HG2.
    rewrite bool_decide_eq_false_2; [done|].
    apply NoDup_app in Hnd' as (_ & Hfresh & _). intros Hin.
    apply (Hfresh _ Hin). simpl. apply list_elem_of_singleton. done.
Qed.

Lemma learn_graph input s :
  well_formed s → graph_mirrors_store s →
  graph_mirrors_store (learn input s).2.
Proof.
  intros Hs Hg. destruct (learn input s) as [r s'] eqn:Hl.
  apply learn_spec in Hl as (s2 & Hres & Hcase).
  pose proof (well_formed_resonated _ _ _ Hs Hres) as Hs2. simpl.
  assert (graph_mirrors_store s2) as Hg2.
  { destruct Hs as [Hnd _]. destruct Hs2 as [Hnd2 _].
    by apply (resonated_graph input (set_cycle s (cycle s + 1)) s2). }
  destruct Hcase as [(_ & _ & ->)|[-> _]]; [|done].
  destruct Hs2 as [Hnd2 _]. by apply pruned_graph.
Qed.

Lemma learn_all_graph inputs s :
  well_formed s → graph_mirrors_store s →
  graph_mirrors_store (learn_all s inputs).
Proof.
  revert s. induction inputs as [|x inputs IH]; intros s Hs Hg; [done|].
  simpl. apply IH; [by apply well_formed_learn|by apply learn_graph].
Qed.

(** X11. Whatever the inputs and whatever calls raised, the graph of an
    object built by the constructor and [learn] is a simple undirected
    graph: no node twice, no loop on a node, every edge between two nodes
    of the graph; and its nodes are the tags of the store in the order of
    the store. *)
Theorem graph_simple_and_in_store_order v a b b2 ph ta inputs :
  let s := learn_all (blank v a b b2 ph ta) inputs in
  simple_graph (network s) ∧ nx.nodes (network s) = tags s.
Proof.
  apply learn_all_graph; [apply well_formed_blank|].
  split; [apply nx_more.simple_graph_empty|done].
Qed.

Lemma same_meta_births (l k : list prototype) :
  Forall2 same_meta l k → birth <$> k = birth <$> l.
Proof.
  induction 1 as [|p q l k (_ & Hb & _) _ IH]; [done|].
  by rewrite !fmap_cons, Hb, IH.
Qed.

Lemma StronglySorted_filter_fmap (P : prototype → Prop)
    `{!∀ x, Decision (P x)} (l : list prototype) :
  StronglySorted Z.lt (birth <$> l) →
  StronglySorted Z.lt (birth <$> filter P l).
Proof.
  induction l as [|x l IH]; [done|]. rewrite fmap_cons.
  intros [Hx Hl]%StronglySorted_cons. rewrite filter_cons.
  case_decide; [|by apply IH]. rewrite fmap_cons.
  apply StronglySorted_cons. split; [|by apply IH].
  rewrite Forall_forall in *. intros b Hb. apply Hx.
  apply list_elem_of_fmap in Hb as (y & -> & [_ Hy]%list_elem_of_filter).
  by apply list_elem_of_fmap_2.
Qed.

Lemma learn_creation_order input s :
  in_creation_order s → in_creation_order (learn input s).2.
Proof.
  intros (Hc & Hsorted & Hb). destruct (learn input s) as [r s'] eqn:Hl.
  apply learn_spec in Hl as (s2 & Hres & Hcase). simpl.
  assert (in_creation_order s2) as (Hc2 & Hsorted2 & Hb2).
  { pose proof (resonated_cycle _ _ _ Hres) as Hcy. simpl in Hcy.
    destruct Hres as (_ & ps & new & G & Hps & Hmeta & Hnew & _).
    unfold in_creation_order, births. rewrite Hps, Hcy, fmap_app.
    rewrite (same_meta_births _ _ Hmeta). simpl. fold (births s).
    assert (Forall (λ b0, 1 <= b0 <= cycle s + 1) (births s)) as Hb'.
    { eapply Forall_impl; [exact Hb|]. simpl. lia. }
    split_and!; [lia| |].
    - destruct Hnew as [->| ->]; simpl; [by rewrite app_nil_r|].
      apply StronglySorted_app. split_and!; [|done|by repeat constructor].
      intros b1 b2' Hb1 ->%list_elem_of_singleton.
      rewrite Forall_forall in Hb. specialize (Hb _ Hb1). lia.
    - apply Forall_app. split; [done|].
      destruct Hnew as [->| ->]; simpl; [done|].
      apply Forall_singleton. lia. }
  destruct Hcase as [(_ & _ & ->)|[-> _]]; [|done].
  unfold in_creation_order, births, pruned. simpl. split_and!; [done| |].
  - by apply StronglySorted_filter_fmap.
  - rewrite Forall_forall in *. intros b0 Hb0. apply Hb2.
    apply list_elem_of_fmap in Hb0 as (y & -> & [_ Hy]%list_elem_of_filter).
    by apply list_elem_of_fmap_2.
Qed.

Lemma learn_all_creation_order inputs s :
  in_creation_order s → in_creation_order (learn_all s inputs).
Proof.
  revert s. induction inputs as [|x inputs IH]; intros s Hs; [done|].
  simpl. by apply IH, learn_creation_order.
Qed.

(** X12. The store of an object built by the constructor and [learn] is in
    the order of creation: the birth cycles increase strictly along the
    store and lie between 1 and the cycle counter, and the tag of each
    prototype is [p] followed by its birth cycle. *)
Theorem store_in_creation_order v a b b2 ph ta inputs :
  let s := learn_all (blank v a b b2 ph ta) inputs in
  StronglySorted Z.lt (births s)
  ∧ Forall (λ c, 1 <= c <= cycle s) (births s)
  ∧ tags s = fresh_tag <$> births s.
Proof.
  simpl.
  destruct (learn_all_creation_order inputs (blank v a b b2 ph ta))
    as (_ & Hsorted & Hb).
  { split_and!; [done|constructor|constructor]. }
  split_and!; [done..|].
  destruct (well_formed_learn_all inputs _
              (well_formed_blank v a b b2 ph ta)) as (_ & Hp & _).
  unfold tags, births. rewrite <- list_fmap_compose.
  apply list_fmap_ext. intros i p Hi. simpl.
  apply Hp. by eapply list_elem_of_lookup_2.
Qed.

(** ** The edges *)

Lemma resonated_edge_kept input s s' u v :
  resonated input s s' →
  nx.has_edge (network s) u v = true →
  nx.has_edge (network s') u v = true.
Proof.
  intros (_ & ps & new & G & _ & _ & Hnew & -> & HG) Huv.
  assert (nx.has_edge G u v = true) as HGuv.
  { destruct HG as [->|(i & j & pi & pj & _ & _ & _ & ->)]; [done|].
    apply nx_more.has_edge_add_edge_iff. by left. }
  destruct Hnew as [->| ->]; simpl; [done|].
  by rewrite nx_more.has_edge_add_node_eq.
Qed.

(** X13. [learn] removes an edge only together with one of its ends: an
    edge of the graph whose two ends are still nodes after the call is
    still an edge, whether the call returned or raised. *)
Theorem edge_lost_only_with_an_end input s r s' u v :
  learn input s = (r, s') →
  nx.has_edge (network s) u v = true →
  u ∈ nx.nodes (network s') → v ∈ nx.nodes (network s') →
  nx.has_edge (network s') u v = true.
Proof.
  intros Hl Huv Hu Hv.
  apply learn_spec in Hl as (s2 & Hres & Hcase).
  pose proof (resonated_edge_kept _ _ _ u v Hres Huv) as Huv2.
  destruct Hcase as [(_ & _ & ->)|[-> _]]; [|done].
  unfold pruned in *. simpl in *.
  apply nx_facts.elem_of_nodes_remove_nodes_from in Hu as [_ Hu].
  apply nx_facts.elem_of_nodes_remove_nodes_from in Hv as [_ Hv].
  by apply nx_more.has_edge_remove_nodes_from_keep.
Qed.

Lemma after_pruning_edge s2 u v :
  NoDup (tags s2) →
  nx.has_edge (network s2) u v = true →
  u ∈ tags (after_pruning s2) → v ∈ tags (after_pruning s2) →
  nx.has_edge (network (after_pruning s2)) u v = true.
Proof.
  intros Hnd Huv. unfold after_pruning. case_bool_decide; [|done].
  intros [_ Hu]%elem_of_tags_pruned [_ Hv]%elem_of_tags_pruned; try done.
  by apply nx_more.has_edge_remove_nodes_from_keep.
Qed.

Lemma winners_joined input s r s' i j pi pj :
  well_formed s →
  learn input s = (r, s') →
  winners (set_cycle s (cycle s + 1)) input i j →
  prototypes s !! i = Some pi → prototypes s !! j = Some pj →
  tag pi ∈ tags s' → tag pj ∈ tags s' →
  r = Ok ()
  ∧ nx.has_edge (network s') (tag pi) (tag pj) = true
  ∧ nx.has_edge (network s') (tag pj) (tag pi) = true.
Proof.
  intros Hs Hl Hw Hi Hj Hti Htj.
  pose proof (winners_resonate _ _ _ _ Hw) as [Hij _].
  destruct Hw as (T & Mv & l & s1 & HT & HM & Hrun & Hli & Hlj).
  assert (prototypes (set_cycle s (cycle s + 1)) ≠ []) as Hne.
  { simpl. intros Hnil. by rewrite Hnil in Hi. }
  pose proof (resonate_run _ _ _ _ _ _ Hne HT HM Hrun) as Hres.
  simpl in Hres.
  pose proof (learn_after _ _ _ Hres) as Hl'.
  rewrite Hl in Hl'. injection Hl' as -> ->.
  assert (well_formed (if any_positive (T_of l) then s1
                       else created input s1)) as [Hnd2 _].
  { eapply well_formed_resonated; [exact Hs|].
    eapply resonate_spec. exact Hres. }
  assert (nx.has_edge (network s1) (tag pi) (tag pj) = true
          ∧ nx.has_edge (network s1) (tag pj) (tag pi) = true)
    as [Hij1 Hji1].
  { pose proof (first_winner_loop_exact _ _ _ _ _ _ _ Hrun) as Heff.
    inversion Heff as
        [r0 s0 _ Hpost|i0 pi0 mi0 w0 r0 s0 _ _ _ _ _ _ _ Hpost
        |i0 j0 pi0 pj0 mi0 mj0 w0 w2 l0 t0 s0 _ Hi0 Hj0 _ _ _ _ _ _ _
           Hnet _ Hli0 Hlj0 _ _]; subst.
    - destruct (Hpost l eq_refl) as (? & _). congruence.
    - destruct (Hpost l eq_refl) as (_ & ? & _). congruence.
    - rewrite Hli in Hli0. rewrite Hlj in Hlj0.
      injection Hli0 as <-. injection Hlj0 as <-. simpl in *.
      rewrite Hi in Hi0. rewrite Hj in Hj0.
      injection Hi0 as <-. injection Hj0 as <-.
      destruct Hnet as [->|[_ Heq]].
      + split; apply nx_more.has_edge_add_edge_iff; tauto.
      + destruct Hs as [Hnd _]. exfalso. apply Hij.
        eapply (NoDup_lookup (tags s)); [done|..].
        * unfold tags. by rewrite list_lookup_fmap, Hi.
        * unfold tags. rewrite list_lookup_fmap, Hj. simpl.
          by rewrite Heq. }
  assert (∀ u v, nx.has_edge (network s1) u v = true →
                 nx.has_edge
                   (network (if any_positive (T_of l) then s1
                             else created input s1)) u v = true)
    as Hkeep.
  { intros u v Huv. destruct (any_positive (T_of l)); [done|].
    simpl. by rewrite nx_more.has_edge_add_node_eq. }
  split_and!; [done|by apply after_pruning_edge; [|apply Hkeep|..]..].
Qed.

(** X14. When the search ends with two winners, they are joined: in an
    object built by the constructor and [learn], after the call the graph
    has the edge between their tags, in both directions, unless one of
    them was pruned in the same call; and the call has returned. *)
Theorem winners_are_joined v a b b2 ph ta inputs input r s' i j pi pj :
  let s := learn_all (blank v a b b2 ph ta) inputs in
  learn input s = (r, s') →
  winners (set_cycle s (cycle s + 1)) input i j →
  prototypes s !! i = Some pi → prototypes s !! j = Some pj →
  tag pi ∈ tags s' → tag pj ∈ tags s' →
  r = Ok ()
  ∧ nx.has_edge (network s') (tag pi) (tag pj) = true
  ∧ nx.has_edge (network s') (tag pj) (tag pi) = true.
Proof.
  intros s. apply winners_joined.
  apply well_formed_learn_all, well_formed_blank.
Qed.

(** ** The writes of the search *)

(** X15. A search that returns changes the winners only.  The store keeps
    its length and every prototype keeps its place, tag, birth and
    [lastactive].  The first winner gets the fuzzy-min rule at rate [beta]
    on its own weights and one more win.  The second winner gets the rule
    at rate [beta] on the new weights of the first winner and keeps its
    counter.  Every other prototype is left as it was. *)
Theorem search_changes_the_winners_only fuel input Mv T s l s1 :
  first_winner_loop fuel input Mv T s = (Ok l, s1) →
  length (prototypes s1) = length (prototypes s)
  ∧ ∀ k p,
      prototypes s !! k = Some p →
      ∃ p', prototypes s1 !! k = Some p' ∧ same_meta p p'
            ∧ (IFW_of l = Some k →
               counter p' = counter p + 1
               ∧ fuzzy_min_update (beta s) input (weights p)
                 = Some (weights p'))
            ∧ (ISW_of l = Some k →
               counter p' = counter p
               ∧ ∃ i pi w,
                   IFW_of l = Some i ∧ prototypes s !! i = Some pi
                   ∧ fuzzy_min_update (beta s) input (weights pi) = Some w
                   ∧ fuzzy_min_update (beta s) input w
                     = Some (weights p'))
            ∧ (IFW_of l ≠ Some k → ISW_of l ≠ Some k → p' = p).
Proof.
  intros Hrun.
  pose proof (first_winner_loop_exact _ _ _ _ _ _ _ Hrun) as Heff.
  inversion Heff as
      [r0 s0 (Hps & _) Hpost|i pi mi w r0 s0 Hi _ _ Hw Hps _ _ Hpost
      |i j pi pj mi mj w w2 l0 t s0 Hij Hi Hj _ _ _ _ Hw Hw2 Hps _ _
         Hli Hlj _ _]; subst.
  - destruct (Hpost l eq_refl) as (Hli & Hlj & _). rewrite Hps.
    split; [done|]. intros k p Hk. exists p.
    rewrite Hli, Hlj. by split_and!.
  - destruct (Hpost l eq_refl) as (Hli & Hlj & _). rewrite Hps.
    split; [by rewrite length_insert|]. intros k p Hk.
    rewrite Hli, Hlj. destruct (decide (k = i)) as [->|Hki].
    + rewrite Hi in Hk. injection Hk as <-. exists (won pi w).
      rewrite list_lookup_insert_eq by (by eapply lookup_lt_Some).
      by split_and!.
    + exists p. rewrite list_lookup_insert_ne by done.
      split_and!; try done. intros [=]. done.
  - rewrite Hps. split; [by rewrite !length_insert|]. intros k p Hk.
    rewrite Hli, Hlj. destruct (decide (k = j)) as [->|Hkj].
    + rewrite Hj in Hk. injection Hk as <-. exists (set_weights pj w2).
      rewrite list_lookup_insert_eq
        by (rewrite length_insert; by eapply lookup_lt_Some).
      split_and!; try done.
      * intros [=]. done.
      * intros _. split; [done|]. by exists i, pi, w.
    + rewrite list_lookup_insert_ne by done.
      destruct (decide (k = i)) as [->|Hki].
      * rewrite Hi in Hk. injection Hk as <-. exists (won pi w).
        rewrite list_lookup_insert_eq by (by eapply lookup_lt_Some).
        split_and!; try done. intros [=]. done.
      * exists p. rewrite list_lookup_insert_ne by done.
        split_and!; try done; intros [=]; done.
Qed.

End Coverage.

(** * The properties on concrete runs

    The runs use the Fuzzy ART instance of the base class. *)

#[local] Existing Instance FuzzyART.base.

Import Scenario.

Ltac run := vm_compute; try reflexivity; try done.


Lemma tags_unique_for_life_witness :
  let s := learn_all eager [east] in
  "p1" ∈ tags s
  ∧ ("p1" ∉ tags (learn_all s [north]))
  ∧ NoDup (tags s)
  ∧ (∀ t', t' ∈ tags s → ∃ c, c <= cycle s ∧ t' = fresh_tag c)
  ∧ (∀ input t', t' ∈ tags (learn input s).2 →
                 t' ∈ tags s ∨ t' = fresh_tag (cycle s + 1))
  ∧ (∀ c c', fresh_tag c = fresh_tag c' → c = c')
  ∧ ("p1" ∈ tags s → "p1" ∉ tags (learn_all s [north]) →
     "p1" ∉ tags (learn_all (learn_all s [north]) [east])).
Proof.
  split; [|split].
  - apply (bool_decide_unpack _). run.
  - apply (bool_decide_unpack _). run.
  - apply (tags_unique_for_life (1#2) (1#100) (1#2) (1#4) 0 0
             [east] [north] [east] "p1").
Defined.

(** The first winner keeps its [lastactive].  On [half_east] the
    prototype [p1] resonates and wins at cycle 2: its weights and its
    counter change, its [lastactive] is still that of cycle 1, and it is
    stale at the cycle at which it has just won.  The prototype [p2]
    created by the same call is the other case. *)
Lemma lastactive_never_refreshed_witness :
  let s := learn_all patient [east] in
  let s' := (learn half_east s).2 in
  prototypes s = [p1]
  ∧ prototypes s' = [p1_won; p2]
  ∧ p1_won ∈ prototypes s'
  ∧ p1_won ≠ new_prototype half_east (fresh_tag (cycle s + 1)) (cycle s + 1)
  ∧ weights p1_won ≠ weights p1
  ∧ counter p1_won = counter p1 + 1
  ∧ lastactive p1_won = lastactive p1
  ∧ (p1_won
     = new_prototype half_east (fresh_tag (cycle s + 1)) (cycle s + 1)
     ∨ ∃ p, p ∈ prototypes s ∧ tag p1_won = tag p ∧ birth p1_won = birth p
            ∧ lastactive p1_won = lastactive p)
  ∧ lastactive p1_won = lastactive0 (birth p1_won)
  ∧ (stale s' p1_won ↔ cycle s' - lastactive0 (birth p1_won) > phi s')
  ∧ ((∀ c, lastactive0 c = c) →
     (stale s' p1_won ↔ cycle s' - birth p1_won > phi s'))
  ∧ stale s' p1_won
  ∧ p2 ∈ prototypes s'
  ∧ lastactive p2 = lastactive0 (birth p2).
Proof.
  assert (prototypes (learn_all patient [east]) = [p1]) as Hs by run.
  assert (prototypes (learn half_east (learn_all patient [east])).2
          = [p1_won; p2]) as Hs' by run.
  assert (p1_won
          ∈ prototypes (learn half_east (learn_all patient [east])).2)
    as Hin.
  { apply (list_elem_of_lookup_2 _ 0%nat). run. }
  assert (p2 ∈ prototypes (learn half_east (learn_all patient [east])).2)
    as Hin2.
  { apply (list_elem_of_lookup_2 _ 1%nat). run. }
  destruct (lastactive_never_refreshed (1#2) (1#100) (1#2) (1#4) 0 100
              [east] half_east p1_won Hin) as (Hold & Hla & Hst & Hage).
  destruct (lastactive_never_refreshed (1#2) (1#100) (1#2) (1#4) 0 100
              [east] half_east p2 Hin2) as (_ & Hla2 & _).
  split_and!; [exact Hs|exact Hs'|exact Hin|run|run|reflexivity
               |reflexivity|exact Hold|exact Hla|exact Hst|exact Hage
               | |exact Hin2|exact Hla2].
  apply Hage; [intros c; reflexivity|run].
Defined.

Lemma stale_prototypes_removed_witness :
  let s := learn_all eager [east] in
  let s' := (learn north s).2 in
  learn north s = (Ok (), s')
  ∧ cycle s' > tau s'
  ∧ p1 ∈ prototypes s
  ∧ cycle s' - lastactive p1 > phi s'
  ∧ (tag p1 ∉ tags s') ∧ (tag p1 ∉ nx.nodes (network s'))
  ∧ Forall (λ q, ¬ stale s' q) (prototypes s').
Proof.
  assert (learn north (learn_all eager [east])
          = (Ok (), (learn north (learn_all eager [east])).2)) as Hl by run.
  assert (cycle (learn north (learn_all eager [east])).2
          > tau (learn north (learn_all eager [east])).2) as Hc by run.
  assert (p1 ∈ prototypes (learn_all eager [east])) as Hin.
  { apply (list_elem_of_lookup_2 _ 0%nat). run. }
  assert (cycle (learn north (learn_all eager [east])).2 - lastactive p1
          > phi (learn north (learn_all eager [east])).2) as Hst by run.
  split_and!; [exact Hl|exact Hc|exact Hin|exact Hst|..];
    apply (stale_prototypes_removed (1#2) (1#100) (1#2) (1#4) 0 0
             [east] north _ p1 Hl Hc Hin Hst).
Defined.

Lemma at_most_one_new_edge_witness :
  let s := learn_all patient [east; north] in
  let out := learn corner s in
  learn corner s = (out.1, out.2)
  ∧ ((∀ u v, nx.has_edge (network out.2) u v = true →
             nx.has_edge (network s) u v = true)
     ∨ ∃ i j pi pj,
         winners (set_cycle s (cycle s + 1)) corner i j
         ∧ (i ≠ j
            ∧ resonates (set_cycle s (cycle s + 1)) corner i
            ∧ resonates (set_cycle s (cycle s + 1)) corner j)
         ∧ prototypes s !! i = Some pi ∧ prototypes s !! j = Some pj
         ∧ ∀ u v, nx.has_edge (network out.2) u v = true →
                  nx.has_edge (network s) u v = true
                  ∨ (u = tag pi ∧ v = tag pj) ∨ (u = tag pj ∧ v = tag pi)).
Proof.
  assert (learn corner (learn_all patient [east; north])
          = ((learn corner (learn_all patient [east; north])).1,
             (learn corner (learn_all patient [east; north])).2)) as Hl by run.
  split; [exact Hl|].
  exact (at_most_one_new_edge corner _ _ _ Hl).
Defined.

Lemma scoring_failure_moves_cycle_only_witness :
  let s := learn_all patient [east] in
  prototypes s ≠ []
  ∧ (choice (set_cycle s (cycle s + 1)) long = inl ValueError
     ∨ (∃ T, choice (set_cycle s (cycle s + 1)) long = inr T
             ∧ match_ (set_cycle s (cycle s + 1)) long = inl ValueError))
  ∧ learn long s = (Raise ValueError, set_cycle s (cycle s + 1)).
Proof.
  assert (prototypes (learn_all patient [east]) ≠ []) as Hne by run.
  assert (choice (set_cycle (learn_all patient [east])
                    (cycle (learn_all patient [east]) + 1)) long
          = inl ValueError
          ∨ (∃ T, choice (set_cycle (learn_all patient [east])
                            (cycle (learn_all patient [east]) + 1)) long
                  = inr T
                  ∧ match_ (set_cycle (learn_all patient [east])
                              (cycle (learn_all patient [east]) + 1)) long
                    = inl ValueError)) as Hraise.
  { left. run. }
  split_and!; [exact Hne|exact Hraise|].
  exact (scoring_failure_moves_cycle_only long _ ValueError Hne Hraise).
Defined.

Lemma constructor_checks_nothing_witness :
  base_accepts (1#2) (1#100) (1#2) = true
  ∧ ∃ s, __init__ (1#2) (1#100) (1#2) (-1#4) (-1) (-1) = Some s
         ∧ beta2 s = (-1#4)%Q ∧ phi s = -1 ∧ tau s = -1
         ∧ cycle s = 0 ∧ prototypes s = [] ∧ network s = nx.empty.
Proof.
  split; [reflexivity|].
  apply (constructor_checks_nothing (1#2) (1#100) (1#2) (-1#4) (-1) (-1)).
  reflexivity.
Defined.

Lemma resonance_scenario_witness :
  let s1 := (learn east patient).2 in
  let s2 := (learn half_east s1).2 in
  length half_east = length east
  ∧ ¬ (2 > 100 ∧ 2 - lastactive0 1 > 0)
  ∧ choice (set_cycle s1 (cycle s1 + 1)) half_east = inr [100#202]%Q
  ∧ Qltb (100#202) 0 = false
  ∧ match_ (set_cycle s1 (cycle s1 + 1)) half_east = inr [2#2]%Q
  ∧ Qle_bool (1#2) (2#2) = true
  ∧ prototypes s1 = [new_prototype east "p1" 1]
  ∧ ∃ p, prototypes s2 !! 0%nat = Some p
         ∧ tag p = "p1"
         ∧ weights p = fuzzy_min (1#2) half_east east
         ∧ Forall2 Qeq (weights p)
             (zip_with (λ x a, (1#2) * a + (1#2) * Qmin x a)%Q half_east east)
         ∧ nx.edges (network s2) = [].
Proof.
  assert (¬ (2 > 100 ∧ 2 - lastactive0 1 > 0)) as Hkeep by (intros [? _]; lia).
  split_and!; [reflexivity|exact Hkeep|reflexivity..| |];
    apply (resonance_scenario (1#4) 0 100 east half_east (100#202) (2#2)
             eq_refl Hkeep eq_refl eq_refl eq_refl eq_refl).
Defined.

(** C1 as stated fails on the code.  In the resonance scenario with the
    Fuzzy ART scores, [half_east] matches [p1] with score 1; the weights of
    [p1] become [0.5·A + 0.5·min(B, A)], which is not the
    [0.5·B + 0.5·min(B, A)] of the claim, and a second prototype is
    created. *)
Lemma resonance_scenario_counterexample :
  let s1 := (learn east patient).2 in
  let s2 := (learn half_east s1).2 in
  prototypes s1 = [p1]
  ∧ match_ (set_cycle s1 (cycle s1 + 1)) half_east = inr [2#2]%Q
  ∧ (1#2 <= 2#2)%Q
  ∧ ∃ p, prototypes s2 !! 0%nat = Some p
         ∧ tag p = "p1"
         ∧ ¬ Forall2 Qeq (weights p)
               (zip_with (λ x a, (1#2) * x + (1#2) * Qmin x a)%Q
                  half_east east)
         ∧ length (prototypes s2) = 2%nat.
Proof.
  split_and!; [reflexivity|reflexivity|by vm_compute|].
  eexists. split_and!; [reflexivity|reflexivity| |reflexivity].
  intros H. apply Forall2_cons_1 in H as [H _]. vm_compute in H. done.
Qed.

(** C2 on the code.  With [p1] = [east] and [p2] = [north] in the store,
    the input [corner] makes [p1] the first winner and [p2] the second
    winner.  The second winner does not get the fuzzy-min rule at rate
    [beta2] on its own weights, which would leave it at [north]; it gets
    the rule at rate [beta] on the updated weights of the first winner and
    ends at [east]. *)
Theorem second_winner_takes_first_winner_weights :
  let s := learn_all patient [east; north] in
  let s' := (learn corner s).2 in
  winners (set_cycle s (cycle s + 1)) corner 0 1
  ∧ tags s = ["p1"; "p2"]
  ∧ (weights <$> prototypes s) = [east; north]
  ∧ ∃ q1 q2, prototypes s' = [q1; q2]
     ∧ Forall2 Qeq (weights q2) (fuzzy_min (beta s) corner (weights q1))
     ∧ Forall2 Qeq (weights q2) east
     ∧ Forall2 Qeq (fuzzy_min (beta2 s) corner north) north
     ∧ ¬ Forall2 Qeq (weights q2) (fuzzy_min (beta2 s) corner north).
Proof.
  split_and!; [|reflexivity|reflexivity|].
  - pose (first_winner_loop 2 corner [1#2; 1#2]%Q [100#101; 100#101]%Q
            (set_cycle (learn_all patient [east; north]) 3)) as out.
    exists [100#101; 100#101]%Q, [1#2; 1#2]%Q,
      (match out.1 with Ok l => l | _ => Locals [] None None end), out.2.
    split_and!; run.
  - eexists _, _. split; [reflexivity|]. split_and!.
    + repeat constructor.
    + repeat constructor.
    + repeat constructor.
    + intros H. apply Forall2_cons_1 in H as [H _]. vm_compute in H. done.
Qed.

(** C5 as stated fails on the code.  An input of a wrong dimension makes
    [choice] raise, and [learn] has by then incremented the cycle
    counter. *)
Lemma scoring_failure_counterexample :
  let s := learn_all patient [east] in
  choice (set_cycle s (cycle s + 1)) long = inl ValueError
  ∧ (learn long s).1 = Raise ValueError
  ∧ cycle s = 1 ∧ cycle (learn long s).2 = 2
  ∧ (learn long s).2 ≠ s.
Proof.
  split_and!; [reflexivity..|]. intros H.
  apply (f_equal cycle) in H. vm_compute in H. done.
Qed.

(** C6 as stated fails on the code.  A base constructor that checks the
    ranges of its own arguments accepts vigilance 0.5, alpha 0.01 and beta
    0.5, and the object is built with a negative [beta2], [phi] and
    [tau]. *)
Lemma constructor_counterexample :
  __init__ (1#2) (1#100) (1#2) (-1#4) (-1) (-1)
  = Some (blank (1#2) (1#100) (1#2) (-1#4) (-1) (-1)).
Proof. reflexivity. Qed.

(** ** Runs for the further properties *)

Lemma first_input_witness :
  prototypes patient = []
  ∧ ∃ s', learn east patient = (Ok (), s') ∧ cycle s' = cycle patient + 1
      ∧ ((¬ (cycle patient + 1 > tau patient
             ∧ cycle patient + 1 - lastactive0 (cycle patient + 1)
               > phi patient)
          ∧ prototypes s'
            = [new_prototype east (fresh_tag (cycle patient + 1))
                 (cycle patient + 1)]
          ∧ network s'
            = nx.add_node (network patient)
                (fresh_tag (cycle patient + 1)))
         ∨ (cycle patient + 1 > tau patient
            ∧ cycle patient + 1 - lastactive0 (cycle patient + 1)
              > phi patient
            ∧ prototypes s' = []
            ∧ fresh_tag (cycle patient + 1) ∉ nx.nodes (network s'))).
Proof.
  split; [reflexivity|].
  exact (first_input east patient eq_refl).
Defined.

(** The first winner [p1] resonates with [half_east] and learns it, no
    second winner is found, and [p2] is created. *)
Lemma creation_without_second_winner_witness :
  let s := learn_all patient [east] in
  let s' := (learn half_east s).2 in
  prototypes s ≠ []
  ∧ learn half_east s = (Ok (), s')
  ∧ (∀ i j, ¬ winners (set_cycle s (cycle s + 1)) half_east i j)
  ∧ cycle s + 1 <= tau s
  ∧ tags s' = tags s ++ [fresh_tag (cycle s + 1)]
  ∧ last (prototypes s')
    = Some (new_prototype half_east (fresh_tag (cycle s + 1))
              (cycle s + 1)).
Proof.
  assert (prototypes (learn_all patient [east]) ≠ []) as Hne by run.
  assert (learn half_east (learn_all patient [east])
          = (Ok (), (learn half_east (learn_all patient [east])).2))
    as Hl by run.
  assert (∀ i j,
            ¬ winners (set_cycle (learn_all patient [east])
                         (cycle (learn_all patient [east]) + 1))
                half_east i j) as Hw.
  { intros i j (T & Mv & l & s1 & HT & HM & Hrun & Hi & Hj).
    vm_compute in HT. injection HT as <-.
    vm_compute in HM. injection HM as <-.
    vm_compute in Hrun. injection Hrun as <- <-. discriminate Hj. }
  assert (cycle (learn_all patient [east]) + 1
          <= tau (learn_all patient [east])) as Hc by run.
  split_and!; [exact Hne|exact Hl|exact Hw|exact Hc|..];
    apply (creation_without_second_winner half_east _ _ Hne Hl Hw Hc).
Defined.

(** After the warm-up: [north] does not resonate with [p1]; [p2] is
    created, and [p1], which is stale at cycle 2, is pruned in the same
    call. *)
Lemma creation_when_none_resonates_witness :
  let s := learn_all eager [east] in
  let s1 := set_cycle s (cycle s + 1) in
  prototypes s ≠ []
  ∧ choice s1 north = inr [0 # 101]%Q
  ∧ match_ s1 north = inr [0%Q]
  ∧ (∀ k t, [0 # 101]%Q !! k = Some t → (0 <= t)%Q →
            ∃ m, [0%Q] !! k = Some m ∧ (m < vigilance s)%Q)
  ∧ learn north s = (Ok (), after_pruning (created north s1))
  ∧ (cycle s + 1 <= tau s → learn north s = (Ok (), created north s1))
  ∧ (cycle s + 1 > tau s →
     learn north s = (Ok (), pruned (created north s1)))
  ∧ cycle s + 1 > tau s
  ∧ tags (learn north s).2 = ["p2"].
Proof.
  assert (prototypes (learn_all eager [east]) ≠ []) as Hne by run.
  assert (choice (set_cycle (learn_all eager [east])
                    (cycle (learn_all eager [east]) + 1)) north
          = inr [0 # 101]%Q) as HT by run.
  assert (match_ (set_cycle (learn_all eager [east])
                    (cycle (learn_all eager [east]) + 1)) north
          = inr [0%Q]) as HM by run.
  assert (∀ k t, [0 # 101]%Q !! k = Some t → (0 <= t)%Q →
                 ∃ m, [0%Q] !! k = Some m
                      ∧ (m < vigilance (learn_all eager [east]))%Q)
    as Hfail.
  { intros [|k] t Hk _; [|by destruct k].
    exists 0%Q. split; reflexivity. }
  assert (cycle (learn_all eager [east]) + 1
          > tau (learn_all eager [east])) as Hc by run.
  destruct (creation_when_none_resonates north _ [0 # 101]%Q [0%Q]
              Hne HT HM Hfail) as (Hl & Hwarm & Hprune).
  split_and!; [exact Hne|exact HT|exact HM|exact Hfail|exact Hl
               |exact Hwarm|exact Hprune|exact Hc|].
  rewrite (Hprune Hc). run.
Defined.

Lemma raising_call_keeps_the_structure_witness :
  let s := learn_all patient [east] in
  let s' := (learn long s).2 in
  learn long s = (Raise ValueError, s')
  ∧ cycle s' = cycle s + 1
  ∧ network s' = network s
  ∧ (prototypes s' = prototypes s
     ∨ ∃ i p w, prototypes s !! i = Some p
                ∧ fuzzy_min_update (beta s) long (weights p) = Some w
                ∧ prototypes s' = <[i := won p w]> (prototypes s)).
Proof.
  assert (learn long (learn_all patient [east])
          = (Raise ValueError, (learn long (learn_all patient [east])).2))
    as Hl by run.
  split; [exact Hl|].
  exact (raising_call_keeps_the_structure long _ _ _ Hl).
Defined.

(** The two prototypes have the same choice score for [corner] and both
    resonate: the earlier one is the first winner. *)
Lemma search_follows_the_scores_witness :
  let s := set_cycle (learn_all patient [east; north]) 3 in
  let T := [100 # 101; 100 # 101]%Q in
  let Mv := [1 # 2; 1 # 2]%Q in
  let l := Locals [(-1)%Q; 100 # 101]%Q (Some 0%nat) (Some 1%nat) in
  let s1 := (first_winner_loop (length T) corner Mv T s).2 in
  choice s corner = inr T
  ∧ match_ s corner = inr Mv
  ∧ first_winner_loop (length T) corner Mv T s = (Ok l, s1)
  ∧ best_resonating s T Mv [] 0%nat
  ∧ best_resonating s T Mv [0%nat] 1%nat.
Proof.
  assert (first_winner_loop 2 corner [1 # 2; 1 # 2]%Q
            [100 # 101; 100 # 101]%Q
            (set_cycle (learn_all patient [east; north]) 3)
          = (Ok (Locals [(-1)%Q; 100 # 101]%Q (Some 0%nat) (Some 1%nat)),
             (first_winner_loop 2 corner [1 # 2; 1 # 2]%Q
                [100 # 101; 100 # 101]%Q
                (set_cycle (learn_all patient [east; north]) 3)).2))
    as Hrun by run.
  assert (choice (set_cycle (learn_all patient [east; north]) 3) corner
          = inr [100 # 101; 100 # 101]%Q) as HT by run.
  assert (match_ (set_cycle (learn_all patient [east; north]) 3) corner
          = inr [1 # 2; 1 # 2]%Q) as HM by run.
  destruct (search_follows_the_scores corner _ _ _ _ _ HT HM Hrun)
    as (Hfirst & Hsecond & _).
  split_and!; [exact HT|exact HM|exact Hrun|..].
  - by apply Hfirst.
  - by apply Hsecond.
Defined.

Lemma edge_lost_only_with_an_end_witness :
  let s := learn_all patient [east; north; corner] in
  let out := learn corner s in
  learn corner s = (out.1, out.2)
  ∧ nx.has_edge (network s) "p1" "p2" = true
  ∧ "p1" ∈ nx.nodes (network out.2)
  ∧ "p2" ∈ nx.nodes (network out.2)
  ∧ nx.has_edge (network out.2) "p1" "p2" = true.
Proof.
  assert (learn corner (learn_all patient [east; north; corner])
          = ((learn corner (learn_all patient [east; north; corner])).1,
             (learn corner (learn_all patient [east; north; corner])).2))
    as Hl by run.
  assert (nx.has_edge (network (learn_all patient [east; north; corner]))
            "p1" "p2" = true) as He by run.
  assert ("p1" ∈ nx.nodes
            (network
               (learn corner (learn_all patient [east; north; corner])).2))
    as H1.
  { apply (bool_decide_unpack _). run. }
  assert ("p2" ∈ nx.nodes
            (network
               (learn corner (learn_all patient [east; north; corner])).2))
    as H2.
  { apply (bool_decide_unpack _). run. }
  split_and!; [exact Hl|exact He|exact H1|exact H2|].
  exact (edge_lost_only_with_an_end corner _ _ _ "p1" "p2" Hl He H1 H2).
Defined.

Lemma winners_are_joined_witness :
  let s := learn_all (blank (1#2) (1#100) (1#2) (1#4) 0 100) [east; north] in
  let s' := (learn corner s).2 in
  let q2 := Prototype north "p2" 2 2 0 in
  learn corner s = (Ok (), s')
  ∧ winners (set_cycle s (cycle s + 1)) corner 0 1
  ∧ prototypes s !! 0%nat = Some p1
  ∧ prototypes s !! 1%nat = Some q2
  ∧ tag p1 ∈ tags s' ∧ tag q2 ∈ tags s'
  ∧ Ok () = Ok ()
  ∧ nx.has_edge (network s') (tag p1) (tag q2) = true
  ∧ nx.has_edge (network s') (tag q2) (tag p1) = true.
Proof.
  assert (learn corner
            (learn_all (blank (1#2) (1#100) (1#2) (1#4) 0 100)
               [east; north])
          = (Ok (),
             (learn corner
                (learn_all (blank (1#2) (1#100) (1#2) (1#4) 0 100)
                   [east; north])).2)) as Hl by run.
  assert (winners
            (set_cycle
               (learn_all (blank (1#2) (1#100) (1#2) (1#4) 0 100)
                  [east; north])
               (cycle (learn_all (blank (1#2) (1#100) (1#2) (1#4) 0 100)
                         [east; north]) + 1))
            corner 0 1) as Hw.
  { exists [100 # 101; 100 # 101]%Q, [1 # 2; 1 # 2]%Q,
      (Locals [(-1)%Q; 100 # 101]%Q (Some 0%nat) (Some 1%nat)),
      (first_winner_loop 2 corner [1 # 2; 1 # 2]%Q
         [100 # 101; 100 # 101]%Q
         (set_cycle (learn_all patient [east; north]) 3)).2.
    split_and!; run. }
  assert (tag p1
          ∈ tags (learn corner
                    (learn_all (blank (1#2) (1#100) (1#2) (1#4) 0 100)
                       [east; north])).2) as H1.
  { apply (bool_decide_unpack _). run. }
  assert (tag (Prototype north "p2" 2 2 0)
          ∈ tags (learn corner
                    (learn_all (blank (1#2) (1#100) (1#2) (1#4) 0 100)
                       [east; north])).2) as H2.
  { apply (bool_decide_unpack _). run. }
  assert (prototypes
            (learn_all (blank (1#2) (1#100) (1#2) (1#4) 0 100)
               [east; north]) !! 0%nat = Some p1) as Hi by run.
  assert (prototypes
            (learn_all (blank (1#2) (1#100) (1#2) (1#4) 0 100)
               [east; north]) !! 1%nat
          = Some (Prototype north "p2" 2 2 0)) as Hj by run.
  split_and!; [exact Hl|exact Hw|exact Hi|exact Hj|exact H1|exact H2|..];
    apply (winners_are_joined (1#2) (1#100) (1#2) (1#4) 0 100
             [east; north] corner _ _ 0%nat 1%nat p1
             (Prototype north "p2" 2 2 0) Hl Hw Hi Hj H1 H2).
Defined.

Lemma search_changes_the_winners_only_witness :
  let s := set_cycle (learn_all patient [east; north]) 3 in
  let T := [100 # 101; 100 # 101]%Q in
  let Mv := [1 # 2; 1 # 2]%Q in
  let l := Locals [(-1)%Q; 100 # 101]%Q (Some 0%nat) (Some 1%nat) in
  let s1 := (first_winner_loop 2 corner Mv T s).2 in
  first_winner_loop 2 corner Mv T s = (Ok l, s1)
  ∧ length (prototypes s1) = length (prototypes s)
  ∧ ∀ k p,
      prototypes s !! k = Some p →
      ∃ p', prototypes s1 !! k = Some p' ∧ same_meta p p'
            ∧ (IFW_of l = Some k →
               counter p' = counter p + 1
               ∧ fuzzy_min_update (beta s) corner (weights p)
                 = Some (weights p'))
            ∧ (ISW_of l = Some k →
               counter p' = counter p
               ∧ ∃ i pi w,
                   IFW_of l = Some i ∧ prototypes s !! i = Some pi
                   ∧ fuzzy_min_update (beta s) corner (weights pi) = Some w
                   ∧ fuzzy_min_update (beta s) corner w
                     = Some (weights p'))
            ∧ (IFW_of l ≠ Some k → ISW_of l ≠ Some k → p' = p).
Proof.
  assert (first_winner_loop 2 corner [1 # 2; 1 # 2]%Q
            [100 # 101; 100 # 101]%Q
            (set_cycle (learn_all patient [east; north]) 3)
          = (Ok (Locals [(-1)%Q; 100 # 101]%Q (Some 0%nat) (Some 1%nat)),
             (first_winner_loop 2 corner [1 # 2; 1 # 2]%Q
                [100 # 101; 100 # 101]%Q
                (set_cycle (learn_all patient [east; north]) 3)).2))
    as Hrun by run.
  split; [exact Hrun|].
  exact (search_changes_the_winners_only _ _ _ _ _ _ _ Hrun).
Defined.
